(** * Variational quantum imaginary-time evolution (VarQITE): the
      differentiation machinery and the Euler integrator of
      [QML/Session3.ipynb], embedded in exact real arithmetic.

    The notebook defines five functions: [gradient], [QFI], [QNG],
    [get_gibbs_state_params] and [loss].  They are embedded here as they are
    written: the parameter dictionary is a mutable, insertion-ordered store
    that the estimators shift and restore in place, every call into the
    simulator may raise, and the integrator reads three module-level
    globals.  Floating-point numbers are read as real numbers; the only
    floating-point phenomenon kept is the distinction between finite and
    non-finite values, which [loss] depends on. *)

From Stdlib Require Import Reals Lra Lia List Arith ZArith Bool.
Import ListNotations.
Open Scope R_scope.

(** ** Complex scalars *)

Record C : Type := mkC { Re : R; Im : R }.

Definition RtoC (x : R) : C := mkC x 0.
Definition Cadd (a b : C) : C := mkC (Re a + Re b) (Im a + Im b).
Definition Csub (a b : C) : C := mkC (Re a - Re b) (Im a - Im b).
(** [x * z] for a Python float [x] and a complex [z]. *)
Definition Cscale (x : R) (z : C) : C := mkC (x * Re z) (x * Im z).
(** [z / x] for a complex [z] and a real divisor [x]. *)
Definition Cdiv (z : C) (x : R) : C := mkC (Re z / x) (Im z / x).

Definition Ceq_dec (a b : C) : {a = b} + {a <> b}.
Proof.
  destruct a as [ar ai], b as [br bi].
  destruct (Req_dec_T ar br) as [Hr|Hr]; [|right; intros E; inversion E; auto].
  destruct (Req_dec_T ai bi) as [Hi|Hi]; [|right; intros E; inversion E; auto].
  left; subst; reflexivity.
Defined.

(** ** Exceptions and results *)

Inductive exn : Type :=
| KeyError            (* subscript of a dictionary by a missing key *)
| ValueError          (* numpy: operands could not be broadcast together *)
| ZeroDivisionError   (* float division by zero *)
| LinAlgError         (* raised by the linear-algebra collaborator *)
| SimulatorError.     (* raised by the ansatz / simulator collaborator *)

Inductive result (A : Type) : Type :=
| Ok (a : A)
| Raise (e : exn).
Arguments Ok {A} a.
Arguments Raise {A} e.

Definition rbind {A B} (r : result A) (k : A -> result B) : result B :=
  match r with
  | Ok a => k a
  | Raise e => Raise e
  end.

Declare Scope result_scope.
Delimit Scope result_scope with res.
Notation "x <- r ;; k" := (rbind r (fun x => k))
  (at level 61, r at next level, right associativity) : result_scope.

Fixpoint rmapM {A B} (f : A -> result B) (l : list A) : result (list B) :=
  match l with
  | [] => Ok []
  | a :: l' =>
      (b <- f a ;; bs <- rmapM f l' ;; Ok (b :: bs))%res
  end.

(** ** The parameter dictionary

    A Python [dict] keyed by the ansatz parameters: an insertion-ordered
    association list without repeated keys.  A parameter is identified by
    its position in the ansatz's parameter vector. *)

Definition Param : Type := nat.
Definition dict : Type := list (Param * R).

Definition dict_keys (d : dict) : list Param := map fst d.

Fixpoint dict_get (d : dict) (p : Param) : option R :=
  match d with
  | [] => None
  | (q, v) :: d' => if Nat.eqb q p then Some v else dict_get d' p
  end.

(** [d[p] = v]: overwrite in place when the key exists, append otherwise. *)
Fixpoint dict_set (d : dict) (p : Param) (v : R) : dict :=
  match d with
  | [] => [(p, v)]
  | (q, w) :: d' =>
      if Nat.eqb q p then (q, v) :: d' else (q, w) :: dict_set d' p v
  end.

(** [dict(pairs)]: later pairs overwrite earlier ones with the same key. *)
Definition dict_of (pairs : list (Param * R)) : dict :=
  fold_left (fun d kv => dict_set d (fst kv) (snd kv)) pairs [].

(** [dict(zip(keys, values))]; [zip] stops at the shorter argument. *)
Definition dict_zip (keys : list Param) (values : list R) : dict :=
  dict_of (combine keys values).

(** ** Computations over the shared dictionary

    The dictionary handed to [gradient] and [QFI] is mutated in place, so a
    computation takes the store and returns the store it leaves behind. *)

Definition M (A : Type) : Type := dict -> result (A * dict).

Definition ret {A} (a : A) : M A := fun d => Ok (a, d).

Definition bind {A B} (m : M A) (k : A -> M B) : M B :=
  fun d => match m d with
           | Ok (a, d') => k a d'
           | Raise e => Raise e
           end.

Declare Scope M_scope.
Delimit Scope M_scope with M.
Notation "x <- m ;; k" := (bind m (fun x => k))
  (at level 61, m at next level, right associativity) : M_scope.
Notation "m ;; k" := (bind m (fun _ => k))
  (at level 61, right associativity) : M_scope.

(** Read-only use of the store by a fallible collaborator. *)
Definition call {A} (f : dict -> result A) : M A :=
  fun d => match f d with
           | Ok a => Ok (a, d)
           | Raise e => Raise e
           end.

(** [parameter_dict[p] += delta] *)
Definition iadd (p : Param) (delta : R) : M unit :=
  fun d => match dict_get d p with
           | Some v => Ok (tt, dict_set d p (v + delta))
           | None => Raise KeyError
           end.

(** [parameter_dict[p] -= delta] *)
Definition isub (p : Param) (delta : R) : M unit :=
  fun d => match dict_get d p with
           | Some v => Ok (tt, dict_set d p (v - delta))
           | None => Raise KeyError
           end.

Fixpoint mapM {A B} (f : A -> M B) (l : list A) : M (list B) :=
  match l with
  | [] => ret []
  | a :: l' => (b <- f a ;; bs <- mapM f l' ;; ret (b :: bs))%M
  end.

(** ** The collaborators

    An [operator] is an expression [op] used as
    [op.assign_parameters(parameter_dict).eval()]: a scalar, or an
    exception, for each binding.

    A [StateFn] is the parameterized state [state_op]: binding its
    parameters gives a bound state, and [(~meas @ st).eval()] is the overlap
    of two bound states. *)

Definition operator : Type := dict -> result C.

Record StateFn : Type := {
  bound : Type;
  assign_parameters : dict -> result bound;
  braket : bound -> bound -> result C
}.

(** ** [gradient] *)

Definition gradient_step (op : operator) (param : Param) : M C :=
  (iadd param (PI / 2) ;;
   p_shift <- call op ;;
   isub param PI ;;
   m_shift <- call op ;;
   iadd param (PI / 2) ;;
   ret (Cscale (1 / 2) (Csub p_shift m_shift)))%M.

Definition gradient (op : operator) : M (list C) :=
  fun parameter_dict =>
    mapM (gradient_step op) (dict_keys parameter_dict) parameter_dict.

(** ** [QFI] *)

(** [(meas @ state_op.assign_parameters(parameter_dict)).eval()] *)
Definition overlap (state_op : StateFn) (meas : bound state_op) : M C :=
  call (fun d =>
          (st <- assign_parameters state_op d ;; braket state_op meas st)%res).

(** [qfi[i, j] += z] and [qfi[i, j] -= z] on the real array [qfi]: the
    complex result is cast back to a real and its imaginary part is
    discarded. *)
Definition store_add (q : R) (z : C) : R := Re (Cadd (RtoC q) z).
Definition store_sub (q : R) (z : C) : R := Re (Csub (RtoC q) z).

Definition QFI_entry (state_op : StateFn) (meas : bound state_op)
    (param_i param_j : Param) : M R :=
  (let q0 := 0 in
   iadd param_i (PI / 2) ;;
   iadd param_j (PI / 2) ;;
   v <- overlap state_op meas ;;
   let q1 := store_add q0 (Cdiv v 4) in
   isub param_j PI ;;
   v <- overlap state_op meas ;;
   let q2 := store_sub q1 (Cdiv v 4) in
   isub param_i PI ;;
   v <- overlap state_op meas ;;
   let q3 := store_add q2 (Cdiv v 4) in
   iadd param_j PI ;;
   v <- overlap state_op meas ;;
   let q4 := store_sub q3 (Cdiv v 4) in
   iadd param_i (PI / 2) ;;
   isub param_j (PI / 2) ;;
   ret q4)%M.

Definition QFI (state_op : StateFn) : M (list (list R)) :=
  fun parameter_dict =>
    match assign_parameters state_op parameter_dict with
    | Raise e => Raise e
    | Ok meas =>
        mapM (fun param_i d =>
                mapM (QFI_entry state_op meas param_i) (dict_keys d) d)
             (dict_keys parameter_dict) parameter_dict
    end.

(** ** numpy array helpers *)

Fixpoint zip_with {A B D} (f : A -> B -> D) (a : list A) (b : list B)
    : list D :=
  match a, b with
  | x :: a', y :: b' => f x y :: zip_with f a' b'
  | _, _ => []
  end.

(** Element-wise binary operation on two 1-D arrays with numpy's
    broadcasting: equal lengths, or one operand of length one. *)
Definition broadcast2 {A B D} (f : A -> B -> D) (a : list A) (b : list B)
    : result (list D) :=
  if Nat.eqb (length a) (length b) then Ok (zip_with f a b)
  else match a, b with
       | [x], _ => Ok (map (f x) b)
       | _, [y] => Ok (map (fun x => f x y) a)
       | _, _ => Raise ValueError
       end.

Definition np_subtract (a b : list R) : result (list R) :=
  broadcast2 Rminus a b.

(** [np.diag(m)] of a square 2-D array: its main diagonal, as a 1-D
    array. *)
Definition np_diag (m : list (list R)) : list R :=
  map (fun i => nth i (nth i m []) 0) (seq 0 (length m)).

(** [m + v] for an n-by-n array [m] and a 1-D array [v] of length n:
    [v] is broadcast along the rows, so it is added to every row. *)
Definition mat_add_vec (m : list (list R)) (v : list R) : list (list R) :=
  map (fun row => zip_with Rplus row v) m.

(** ** [QNG] *)

Definition alpha : R := 1 / 100000000.

(** [qfi + alpha * np.diag(qfi)] *)
Definition regularized (qfi : list (list R)) : list (list R) :=
  mat_add_vec qfi (map (Rmult alpha) (np_diag qfi)).

(** The module-level names read by [get_gibbs_state_params]. *)
Record globals : Type := {
  t : R;
  num_time_steps : Z;
  ansatz_op : StateFn
}.

(** The principal value of the complex logarithm at a non-zero argument:
    [ln |z| + i arg z] with [arg z] in [(-pi, pi]]. *)
Definition Carg (z : C) : R :=
  if Rlt_dec 0 (Re z) then atan (Im z / Re z)
  else if Rlt_dec 0 (Im z) then PI / 2 - atan (Re z / Im z)
  else if Rlt_dec (Im z) 0 then - (PI / 2) - atan (Re z / Im z)
  else PI.

Definition Clog (z : C) : C :=
  mkC (ln (sqrt (Re z * Re z + Im z * Im z))) (Carg z).

(** ** numpy scalars that need not be finite *)

(** A numpy scalar is either finite or one of [inf], [-inf], [nan]. *)
Inductive npfloat (A : Type) : Type :=
| Finite (x : A)
| NonFinite.
Arguments Finite {A} x.
Arguments NonFinite {A}.

(** [np.log] on a complex array entry: [log(0)] is [-inf] (with a
    warning), never an exception. *)
Definition np_log (z : C) : npfloat C :=
  if Ceq_dec z (RtoC 0) then NonFinite else Finite (Clog z).

Definition fmul (x : R) (z : npfloat C) : npfloat C :=
  match z with
  | Finite c => Finite (Cscale x c)
  | NonFinite => NonFinite
  end.

Definition fadd (a b : npfloat C) : npfloat C :=
  match a, b with
  | Finite x, Finite y => Finite (Cadd x y)
  | _, _ => NonFinite
  end.

Definition np_sum (l : list (npfloat C)) : npfloat C :=
  fold_left fadd l (Finite (RtoC 0)).

Definition fneg (a : npfloat C) : npfloat C :=
  match a with
  | Finite x => Finite (Cscale (-1) x)
  | NonFinite => NonFinite
  end.

Definition np_real (a : npfloat C) : npfloat R :=
  match a with
  | Finite x => Finite (Re x)
  | NonFinite => NonFinite
  end.

(** [-np.sum(np.multiply(p_target, np.log(p_qbm)))], real part. *)
Definition cross_entropy (p_target : list R) (p_qbm : list C)
    : result (npfloat R) :=
  (prod <- broadcast2 fmul p_target (map np_log p_qbm) ;;
   Ok (np_real (fneg (np_sum prod))))%res.

Section VarQITE.

(** [np.linalg.lstsq(a, b, rcond=None)[0]] *)
Variable lstsq : list (list R) -> list C -> result (list C).

Definition QNG (op : operator) (state_op : StateFn) : M (list C) :=
  (grad <- gradient op ;;
   qfi <- QFI state_op ;;
   call (fun _ => lstsq (regularized qfi) grad))%M.

(** ** [get_gibbs_state_params] *)

(** [t/num_time_steps] *)
Definition step_size (G : globals) : result R :=
  if Z.eqb (num_time_steps G) 0 then Raise ZeroDivisionError
  else Ok (t G / IZR (num_time_steps G)).

(** The body of the loop: one explicit Euler update. *)
Definition euler_update (G : globals) (op : operator)
    (ordered_parameters : list Param) (param_values : list R)
    : result (list R) :=
  let param_dict := dict_zip ordered_parameters param_values in
  (r <- QNG op (ansatz_op G) param_dict ;;
   let nat_grad_result := map Re (fst r) in
   h <- step_size G ;;
   np_subtract param_values (map (Rmult h) nat_grad_result))%res.

Fixpoint get_gibbs_state_params (G : globals) (op : operator)
    (ordered_parameters : list Param) (param_values : list R)
    (time_steps : list R) : result (list R) :=
  match time_steps with
  | [] => Ok param_values
  | _step :: rest =>
      (param_values' <- euler_update G op ordered_parameters param_values ;;
       get_gibbs_state_params G op ordered_parameters param_values' rest)%res
  end.

(** ** [loss] *)

(** The remaining module-level names read by [loss]. *)
Variable G : globals.
(** [~StateFn(H.assign_parameters(dict(zip([a, b, c], H_coeffs)))) @ ansatz_op] *)
Variable hamiltonian_op : list R -> operator.
(** [ansatz.ordered_parameters] *)
Variable ordered_parameters : list Param.
Variable param_values_init : list R.
Variable time_steps : list R.
Variable p_target : list R.
(** [np.diag(partial_trace(st.eval().primitive, [0, 1]).data)] *)
Variable visible_diagonal : bound (ansatz_op G) -> result (list C).

Definition loss (H_coeffs : list R) : result (npfloat R) :=
  let op := hamiltonian_op H_coeffs in
  (param_values <-
     get_gibbs_state_params G op ordered_parameters param_values_init
                            time_steps ;;
   st <- assign_parameters (ansatz_op G)
           (dict_zip ordered_parameters param_values) ;;
   p_qbm <- visible_diagonal st ;;
   cross_entropy p_target p_qbm)%res.

End VarQITE.

(** * Auxiliary definitions *)

(** ** Shifts and stencils *)

Definition bump (p : Param) (delta : R) (kv : Param * R) : Param * R :=
  (fst kv, if Nat.eqb (fst kv) p then snd kv + delta else snd kv).

(** The dictionary [d] with the value stored under [p] moved by [delta]. *)
Definition shifted (d : dict) (p : Param) (delta : R) : dict :=
  map (bump p delta) d.

(** The dictionary [d] with the value of its [k]-th entry moved by
    [delta] and every other entry as it is. *)
Fixpoint shift_component (d : dict) (k : nat) (delta : R) : dict :=
  match d, k with
  | [], _ => []
  | (p, v) :: d', O => (p, v + delta) :: d'
  | kv :: d', S k' => kv :: shift_component d' k' delta
  end.

(** The parameter-shift quotient for the parameter [p] at the binding [d]. *)
Definition grad_entry (op : operator) (d : dict) (p : Param) : result C :=
  (p_shift <- op (shifted d p (PI / 2)) ;;
   m_shift <- op (shifted d p (- (PI / 2))) ;;
   Ok (Cscale (1 / 2) (Csub p_shift m_shift)))%res.

(** The overlap of the measurement state with the state bound at [d]. *)
Definition overlap_at (state_op : StateFn) (meas : bound state_op) (d : dict)
    : result C :=
  (st <- assign_parameters state_op d ;; braket state_op meas st)%res.

(** The binding [d] with parameter [i] moved by [a], then [j] by [b]; for
    [i = j] the two displacements accumulate on the one entry. *)
Definition shift2 (d : dict) (i : Param) (a : R) (j : Param) (b : R) : dict :=
  shifted (shifted d i a) j b.

(** The four overlaps, in the order in which [QFI] evaluates them, and
    their combination. *)
Definition qfi_stencil (state_op : StateFn) (meas : bound state_op)
    (d : dict) (i j : Param) : result R :=
  (fpp <- overlap_at state_op meas (shift2 d i (PI / 2) j (PI / 2)) ;;
   fpm <- overlap_at state_op meas (shift2 d i (PI / 2) j (- (PI / 2))) ;;
   fmm <- overlap_at state_op meas (shift2 d i (- (PI / 2)) j (- (PI / 2))) ;;
   fmp <- overlap_at state_op meas (shift2 d i (- (PI / 2)) j (PI / 2)) ;;
   Ok (Re fpp / 4 - Re fpm / 4 + Re fmm / 4 - Re fmp / 4))%res.

(** [qfi[k, l]] *)
Definition entry (m : list (list R)) (k l : nat) : option R :=
  match nth_error m k with
  | Some row => nth_error row l
  | None => None
  end.

(** The ansatz prepares unit vectors. *)
Definition unit_norm (state_op : StateFn) : Prop :=
  forall d st, assign_parameters state_op d = Ok st ->
               braket state_op st st = Ok (RtoC 1).

(** [p] is the angle of one rotation [exp(-i p P / 2)] whose generator
    [P / 2] has the eigenvalues [1/2] and [-1/2]: a turn by [2 pi] negates
    the prepared state, so the states at [p + pi] and at [p - pi] are
    opposite, and so are their overlaps with any fixed state. *)
Definition rotation_angle (state_op : StateFn) (p : Param) : Prop :=
  forall meas d v,
    overlap_at state_op meas (shifted d p PI) = Ok v ->
    overlap_at state_op meas (shifted d p (- PI)) = Ok (Cscale (-1) v).

(** ** A concrete ansatz: a chain of RY rotations on one qubit

    [RY(a_1) ... RY(a_n)|0>] has the real amplitudes
    [(cos(s/2), sin(s/2))] with [s] the sum of the angles.  The simulator
    raises when a parameter of the circuit is left unbound. *)

Definition lookup_all (ps : list Param) (d : dict) : result (list R) :=
  rmapM (fun p => match dict_get d p with
                  | Some v => Ok v
                  | None => Raise SimulatorError
                  end) ps.

Definition total_angle (ps : list Param) (d : dict) : result R :=
  (vs <- lookup_all ps d ;; Ok (fold_right Rplus 0 vs))%res.

Definition ry_state (s : R) : R * R := (cos (s / 2), sin (s / 2)).

Definition inner (a b : R * R) : R := fst a * fst b + snd a * snd b.

Definition ry_chain (ps : list Param) : StateFn :=
  {| bound := R * R;
     assign_parameters :=
       fun d => (s <- total_angle ps d ;; Ok (ry_state s))%res;
     braket := fun a b => Ok (RtoC (inner a b)) |}.

(** [<psi| c Z |psi>] *)
Definition expect_Z (c : R) (st : R * R) : C :=
  RtoC (c * (fst st * fst st - snd st * snd st)).

Definition ry_chain_Z (ps : list Param) (c : R) : operator :=
  fun d => (s <- total_angle ps d ;; Ok (expect_Z c (ry_state s)))%res.

(** The diagonal of the density matrix of the qubit. *)
Definition ry_diagonal (st : R * R) : result (list C) :=
  Ok [RtoC (fst st * fst st); RtoC (snd st * snd st)].

(** [np.linalg.lstsq] on systems of one equation in one unknown: the
    quotient, or the minimum-norm solution [0] of the singular system. *)
Definition lstsq_1x1 (a : list (list R)) (b : list C) : result (list C) :=
  match a, b with
  | [[a00]], [b0] =>
      Ok [if Req_dec_T a00 0 then RtoC 0 else Cdiv b0 a00]
  | _, _ => Raise LinAlgError
  end.

(** Two RY rotations on one qubit, with both angles at zero. *)
Definition two_ry : StateFn := ry_chain [0%nat; 1%nat].
Definition origin2 : dict := [(0%nat, 0); (1%nat, 0)].

Fixpoint repeat_update (n : nat) (f : list R -> result (list R))
    (x : list R) : result (list R) :=
  match n with
  | O => Ok x
  | S n' => (x' <- f x ;; repeat_update n' f x')%res
  end.

(** The stencil in the words of the specification.

    Term A shifts both by [+pi/2], term B shifts [k] by [+pi/2] and [l] by
    [-pi/2], term C shifts [k] by [-pi/2] and [l] by [+pi/2], term D shifts
    both by [-pi/2]; the entry is [A/4 - B/4 + C/4 - D/4]. *)
Definition stencil_as_specified (state_op : StateFn) (meas : bound state_op)
    (d : dict) (k l : nat) : result C :=
  (tA <- overlap_at state_op meas
           (shift_component (shift_component d k (PI / 2)) l (PI / 2)) ;;
   tB <- overlap_at state_op meas
           (shift_component (shift_component d k (PI / 2)) l (- (PI / 2))) ;;
   tC <- overlap_at state_op meas
           (shift_component (shift_component d k (- (PI / 2))) l (PI / 2)) ;;
   tD <- overlap_at state_op meas
           (shift_component (shift_component d k (- (PI / 2))) l
              (- (PI / 2))) ;;
   Ok (Csub (Cadd (Csub (Cscale (1 / 4) tA) (Cscale (1 / 4) tB))
                  (Cscale (1 / 4) tC))
            (Cscale (1 / 4) tD)))%res.

(** The integrator in the words of the specification: one update for each
    pair of consecutive grid points, with the spacing of the pair as the
    step. *)
Fixpoint propagate_as_specified (nat_grad : list R -> result (list R))
    (theta : list R) (time_grid : list R) : result (list R) :=
  match time_grid with
  | t0 :: ((t1 :: _) as rest) =>
      (g <- nat_grad theta ;;
       theta' <- np_subtract theta (map (Rmult (t1 - t0)) g) ;;
       propagate_as_specified nat_grad theta' rest)%res
  | _ => Ok theta
  end.

(** [np.real(QNG(op, ansatz_op, dict(zip(ordered_parameters, theta))))] *)
Definition real_natural_gradient
    (lstsq : list (list R) -> list C -> result (list C))
    (op : operator) (state_op : StateFn) (ordered_parameters : list Param)
    (theta : list R) : result (list R) :=
  (r <- QNG lstsq op state_op (dict_zip ordered_parameters theta) ;;
   Ok (map Re (fst r)))%res.

(** Globals for the one-rotation ansatz. *)
Definition ry1_globals (t0 : R) (n : Z) : globals :=
  {| t := t0; num_time_steps := n; ansatz_op := ry_chain [0%nat] |}.

(** The Hamiltonian [c Z] on the one-rotation ansatz, [c] its single
    coefficient. *)
Definition ry1_hamiltonian (H_coeffs : list R) : operator :=
  ry_chain_Z [0%nat] (hd 0 H_coeffs).

(** ** Further definitions: operators, grids, solvers, the initial vector *)

(** The operator whose value at each binding is the sum of the values of
    [op1] and [op2]: the expectation of a [SummedOp]. *)
Definition op_add (op1 op2 : operator) : operator :=
  fun d => (a <- op1 d ;; b <- op2 d ;; Ok (Cadd a b))%res.

(** The operator scaled by the real coefficient [c]. *)
Definition op_scale (c : R) (op : operator) : operator :=
  fun d => (a <- op d ;; Ok (Cscale c a))%res.

(** The state does not depend on component [k] of bindings with the keys
    of [d]. *)
Definition ignores_component (state_op : StateFn) (d : dict) (k : nat)
    : Prop :=
  forall (meas : bound state_op) d' delta,
    dict_keys d' = dict_keys d ->
    overlap_at state_op meas (shift_component d' k delta)
    = overlap_at state_op meas d'.

Definition origin3 : dict := [(0%nat, 0); (1%nat, 0); (2%nat, 0)].

(** [np.linspace(start, stop, num)] with the default [endpoint=True]. *)
Definition np_linspace (start stop : R) (num : nat) : list R :=
  match num with
  | O => []
  | S O => [start]
  | _ => map (fun i => start + INR i * ((stop - start) / INR (num - 1)))
             (seq 0 num)
  end.

(** The solver returns one unknown per column of a square system. *)
Definition lstsq_shape (lstsq : list (list R) -> list C -> result (list C))
    : Prop :=
  forall a b x, lstsq a b = Ok x -> length x = length a.

(** For a right-hand side with vanishing real part the solver returns a
    solution with vanishing real part. *)
Definition lstsq_real_zero
    (lstsq : list (list R) -> list C -> result (list C)) : Prop :=
  forall a b x,
    lstsq a b = Ok x ->
    Forall (fun z => Re z = 0) b -> Forall (fun z => Re z = 0) x.

(** [sum(a[i] * b[i])] *)
Fixpoint dot (a b : list R) : R :=
  match a, b with
  | x :: a', y :: b' => x * y + dot a' b'
  | _, _ => 0
  end.

(** [range(start, stop)] *)
Definition py_range (start stop : Z) : list Z :=
  map (fun i => (start + Z.of_nat i)%Z) (seq 0 (Z.to_nat (stop - start))).

Fixpoint list_update (arr : list R) (i : nat) (v : R) : list R :=
  match arr, i with
  | [], _ => []
  | _ :: arr', O => v :: arr'
  | x :: arr', S i' => x :: list_update arr' i' v
  end.

(** [arr[j] = v] on a 1-D array: a negative index counts from the end, an
    index outside the array is an [IndexError] ([None]). *)
Definition np_setitem (arr : list R) (j : Z) (v : R) : option (list R) :=
  let n := Z.of_nat (length arr) in
  if ((0 <=? j) && (j <? n))%Z then Some (list_update arr (Z.to_nat j) v)
  else if ((- n <=? j) && (j <? 0))%Z
       then Some (list_update arr (Z.to_nat (n + j)) v)
       else None.

(** [np.zeros(n)] *)
Definition np_zeros (n : nat) : list R := repeat 0 n.

(** The cell that initializes the ansatz parameters, for [num_qubits]
    qubits and [depth] repetitions:
    [param_values_init = np.zeros(2 * num_qubits * (depth + 1))], then
    [param_values_init[j] = np.pi/2] for [j] in
    [range(2 * num_qubits * depth, len(param_values_init) - num_qubits - 2)]. *)
Definition init_param_values (num_qubits depth : nat) : option (list R) :=
  let zeros := np_zeros (2 * num_qubits * (depth + 1)) in
  fold_left
    (fun arr j => match arr with
                  | Some a => np_setitem a j (PI / 2)
                  | None => None
                  end)
    (py_range (Z.of_nat (2 * num_qubits * depth))
              (Z.of_nat (length zeros) - Z.of_nat num_qubits - 2))
    (Some zeros).

(** [np.linalg.lstsq] on systems of two equations in two unknowns: the
    solution of a regular system, and the minimum-norm least-squares
    solution of a singular one, which is [a^T b / |a|^2] with [|a|] the
    Frobenius norm for a matrix of rank one and [0] for the zero matrix. *)
Definition lstsq_2x2 (a : list (list R)) (b : list C) : result (list C) :=
  match a, b with
  | [[a00; a01]; [a10; a11]], [b0; b1] =>
      let det := a00 * a11 - a01 * a10 in
      let fro := a00 * a00 + a01 * a01 + a10 * a10 + a11 * a11 in
      Ok (if Req_dec_T det 0
          then if Req_dec_T fro 0 then [RtoC 0; RtoC 0]
               else [Cdiv (Cadd (Cscale a00 b0) (Cscale a10 b1)) fro;
                     Cdiv (Cadd (Cscale a01 b0) (Cscale a11 b1)) fro]
          else [Cdiv (Csub (Cscale a11 b0) (Cscale a01 b1)) det;
                Cdiv (Csub (Cscale a00 b1) (Cscale a10 b0)) det])
  | _, _ => Raise LinAlgError
  end.

(** Globals for the ansatz of two rotations. *)
Definition ry2_globals (t0 : R) (n : Z) : globals :=
  {| t := t0; num_time_steps := n; ansatz_op := two_ry |}.

(** * Reasoning principles *)

(** ** Scalars *)

Lemma C_eq (a b : C) : Re a = Re b -> Im a = Im b -> a = b.
Proof. destruct a, b; simpl; intros -> ->; reflexivity. Qed.

(** ** Results *)

Lemma rmapM_length {A B} (g : A -> result B) l bs :
  rmapM g l = Ok bs -> length bs = length l.
Proof.
  revert bs; induction l as [|a l IH]; simpl; intros bs H.
  - inversion H; reflexivity.
  - destruct (g a) as [b|e]; simpl in H; [|discriminate].
    destruct (rmapM g l) as [bs'|e]; simpl in H; [|discriminate].
    inversion H; subst; simpl; f_equal; apply IH; reflexivity.
Qed.

Lemma rmapM_nth {A B} (g : A -> result B) l bs k a :
  rmapM g l = Ok bs -> nth_error l k = Some a ->
  exists b, g a = Ok b /\ nth_error bs k = Some b.
Proof.
  revert bs k; induction l as [|x l IH]; simpl; intros bs k H Hk.
  - destruct k; discriminate.
  - destruct (g x) as [b|e] eqn:Hx; simpl in H; [|discriminate].
    destruct (rmapM g l) as [bs'|e]; simpl in H; [|discriminate].
    inversion H; subst.
    destruct k as [|k]; simpl in *.
    + inversion Hk; subst. exists b; auto.
    + apply (IH bs' k eq_refl Hk).
Qed.

Lemma rmapM_total {A B} (g : A -> result B) l :
  (forall a, In a l -> exists b, g a = Ok b) ->
  exists bs, rmapM g l = Ok bs.
Proof.
  induction l as [|a l IH]; simpl; intros H.
  - eexists; reflexivity.
  - destruct (H a (or_introl eq_refl)) as [b ->].
    destruct IH as [bs ->]; [intros; apply H; auto|].
    simpl. eexists; reflexivity.
Qed.

(** A loop whose body leaves the store as it found it computes a pure
    traversal and leaves the store unchanged. *)
Lemma mapM_frame {A B} (f : A -> M B) (g : A -> result B) l d :
  (forall a, In a l -> f a d = (b <- g a ;; Ok (b, d))%res) ->
  mapM f l d = (bs <- rmapM g l ;; Ok (bs, d))%res.
Proof.
  induction l as [|a l IH]; simpl; intros H; [reflexivity|].
  unfold bind at 1. rewrite (H a (or_introl eq_refl)).
  destruct (g a) as [b|e]; simpl; [|reflexivity].
  unfold bind. rewrite IH by (intros; apply H; auto).
  destruct (rmapM g l); reflexivity.
Qed.

(** ** Shifting a dictionary entry *)

Lemma dict_keys_shifted d p delta :
  dict_keys (shifted d p delta) = dict_keys d.
Proof.
  unfold dict_keys, shifted. rewrite map_map. apply map_ext.
  intros [q v]; reflexivity.
Qed.

Lemma shifted_absent d p delta :
  ~ In p (dict_keys d) -> shifted d p delta = d.
Proof.
  induction d as [|[q v] d IH]; simpl; intros H; [reflexivity|].
  unfold bump at 1; simpl.
  destruct (Nat.eqb_spec q p) as [->|_]; [tauto|].
  f_equal. apply IH; tauto.
Qed.

Lemma shifted_same d p a b :
  shifted (shifted d p a) p b = shifted d p (a + b).
Proof.
  unfold shifted. rewrite map_map. apply map_ext.
  intros [q v]; unfold bump; simpl.
  destruct (Nat.eqb q p); f_equal; lra.
Qed.

Lemma shifted_zero d p : shifted d p 0 = d.
Proof.
  unfold shifted. rewrite <- (map_id d) at 2. apply map_ext.
  intros [q v]; unfold bump; simpl.
  destruct (Nat.eqb q p); f_equal; lra.
Qed.

(** A later shift of [i] can be merged into an earlier one across a shift
    of [j], whether or not [i] and [j] are the same parameter. *)
Lemma shifted_merge d i j a b c :
  shifted (shifted (shifted d i a) j b) i c = shifted (shifted d i (a + c)) j b.
Proof.
  unfold shifted. rewrite !map_map. apply map_ext.
  intros [q v]; unfold bump; simpl.
  destruct (Nat.eqb q i), (Nat.eqb q j); f_equal; lra.
Qed.

Lemma shifted_swap d i j a b :
  shifted (shifted d i a) j b = shifted (shifted d j b) i a.
Proof.
  unfold shifted. rewrite !map_map. apply map_ext.
  intros [q v]; unfold bump; simpl.
  destruct (Nat.eqb q i), (Nat.eqb q j); f_equal; lra.
Qed.

Lemma dict_get_present d p :
  In p (dict_keys d) -> exists v, dict_get d p = Some v.
Proof.
  induction d as [|[q v] d IH]; simpl; [tauto|].
  intros [->|H].
  - rewrite Nat.eqb_refl. eauto.
  - destruct (Nat.eqb q p); eauto.
Qed.

Lemma dict_set_shifted d p v delta :
  NoDup (dict_keys d) -> dict_get d p = Some v ->
  dict_set d p (v + delta) = shifted d p delta.
Proof.
  induction d as [|[q w] d IH]; simpl; intros Hnd Hget; [discriminate|].
  inversion Hnd as [|? ? Hnotin Hnd']; subst.
  unfold bump at 1; simpl.
  destruct (Nat.eqb_spec q p) as [->|Hne].
  - inversion Hget; subst. f_equal.
    symmetry. apply shifted_absent; assumption.
  - f_equal. apply IH; assumption.
Qed.

Lemma iadd_run p delta d :
  NoDup (dict_keys d) -> In p (dict_keys d) ->
  iadd p delta d = Ok (tt, shifted d p delta).
Proof.
  intros Hnd Hin. unfold iadd.
  destruct (dict_get_present d p Hin) as [v Hv]. rewrite Hv.
  rewrite (dict_set_shifted d p v delta Hnd Hv). reflexivity.
Qed.

Lemma isub_run p delta d :
  NoDup (dict_keys d) -> In p (dict_keys d) ->
  isub p delta d = Ok (tt, shifted d p (- delta)).
Proof.
  intros Hnd Hin. unfold isub.
  destruct (dict_get_present d p Hin) as [v Hv]. rewrite Hv.
  unfold Rminus. rewrite (dict_set_shifted d p v (- delta) Hnd Hv). reflexivity.
Qed.

(** ** What [gradient] computes *)

Ltac keys_side :=
  repeat rewrite dict_keys_shifted; assumption.

Lemma gradient_step_run op p d :
  NoDup (dict_keys d) -> In p (dict_keys d) ->
  gradient_step op p d = (g <- grad_entry op d p ;; Ok (g, d))%res.
Proof.
  intros Hnd Hin. unfold gradient_step, grad_entry, bind.
  rewrite (iadd_run p (PI / 2) d Hnd Hin).
  unfold call at 1.
  destruct (op (shifted d p (PI / 2))) as [ps|e]; simpl; [|reflexivity].
  rewrite isub_run by keys_side.
  rewrite shifted_same.
  replace (PI / 2 + - PI) with (- (PI / 2)) by lra.
  unfold call.
  destruct (op (shifted d p (- (PI / 2)))) as [ms|e]; simpl; [|reflexivity].
  rewrite iadd_run by keys_side.
  rewrite shifted_same.
  replace (- (PI / 2) + PI / 2) with 0 by lra.
  rewrite shifted_zero. reflexivity.
Qed.

Lemma gradient_run op d :
  NoDup (dict_keys d) ->
  gradient op d = (g <- rmapM (grad_entry op d) (dict_keys d) ;; Ok (g, d))%res.
Proof.
  intros Hnd. unfold gradient. apply mapM_frame.
  intros p Hp. apply gradient_step_run; assumption.
Qed.

(** ** What [QFI] computes *)

Lemma overlap_call state_op meas d :
  overlap state_op meas d =
  (v <- overlap_at state_op meas d ;; Ok (v, d))%res.
Proof.
  unfold overlap, call, overlap_at.
  destruct (assign_parameters state_op d) as [st|e]; simpl; [|reflexivity].
  destruct (braket state_op meas st); reflexivity.
Qed.

Lemma QFI_entry_run state_op meas i j d :
  NoDup (dict_keys d) -> In i (dict_keys d) -> In j (dict_keys d) ->
  QFI_entry state_op meas i j d =
  (q <- qfi_stencil state_op meas d i j ;; Ok (q, d))%res.
Proof.
  intros Hnd Hi Hj. unfold QFI_entry, qfi_stencil, shift2, bind.
  rewrite (iadd_run i (PI / 2) d Hnd Hi).
  rewrite iadd_run by keys_side.
  rewrite overlap_call.
  destruct (overlap_at state_op meas (shifted (shifted d i (PI / 2)) j (PI / 2)))
    as [fpp|e]; simpl; [|reflexivity].
  rewrite isub_run by keys_side.
  rewrite shifted_same.
  replace (PI / 2 + - PI) with (- (PI / 2)) by lra.
  rewrite overlap_call.
  destruct (overlap_at state_op meas
              (shifted (shifted d i (PI / 2)) j (- (PI / 2))))
    as [fpm|e]; simpl; [|reflexivity].
  rewrite isub_run by keys_side.
  rewrite shifted_merge.
  replace (PI / 2 + - PI) with (- (PI / 2)) by lra.
  rewrite overlap_call.
  destruct (overlap_at state_op meas
              (shifted (shifted d i (- (PI / 2))) j (- (PI / 2))))
    as [fmm|e]; simpl; [|reflexivity].
  rewrite iadd_run by keys_side.
  rewrite shifted_same.
  replace (- (PI / 2) + PI) with (PI / 2) by lra.
  rewrite overlap_call.
  destruct (overlap_at state_op meas
              (shifted (shifted d i (- (PI / 2))) j (PI / 2)))
    as [fmp|e]; simpl; [|reflexivity].
  rewrite iadd_run by keys_side.
  rewrite shifted_merge.
  replace (- (PI / 2) + PI / 2) with 0 by lra.
  rewrite isub_run by keys_side.
  rewrite shifted_same.
  replace (PI / 2 + - (PI / 2)) with 0 by lra.
  rewrite (shifted_swap d i j 0 0), !shifted_zero.
  unfold ret. do 2 f_equal.
  unfold store_add, store_sub, Cadd, Csub, Cdiv, RtoC; simpl. lra.
Qed.

Lemma QFI_run state_op d :
  NoDup (dict_keys d) ->
  QFI state_op d =
  (meas <- assign_parameters state_op d ;;
   qfi <- rmapM (fun i => rmapM (qfi_stencil state_op meas d i) (dict_keys d))
                (dict_keys d) ;;
   Ok (qfi, d))%res.
Proof.
  intros Hnd. unfold QFI.
  destruct (assign_parameters state_op d) as [meas|e]; simpl; [|reflexivity].
  apply mapM_frame. intros i Hi.
  apply mapM_frame. intros j Hj.
  apply QFI_entry_run; assumption.
Qed.

(** Whenever [QFI] returns, the store is as it was, the array is square and
    its entry [(k, l)] is the stencil of the [k]-th and [l]-th keys. *)
Lemma QFI_returns state_op d qfi d' :
  NoDup (dict_keys d) ->
  QFI state_op d = Ok (qfi, d') ->
  d' = d /\
  exists meas,
    assign_parameters state_op d = Ok meas /\
    length qfi = length d /\
    (forall k row, nth_error qfi k = Some row -> length row = length d) /\
    (forall k l pk pl,
        nth_error (dict_keys d) k = Some pk ->
        nth_error (dict_keys d) l = Some pl ->
        exists q, qfi_stencil state_op meas d pk pl = Ok q /\
                  entry qfi k l = Some q).
Proof.
  intros Hnd H. rewrite (QFI_run state_op d Hnd) in H.
  destruct (assign_parameters state_op d) as [meas|e]; simpl in H;
    [|discriminate].
  destruct (rmapM _ (dict_keys d)) as [m|e] eqn:Hm; simpl in H;
    [|discriminate].
  injection H as Hq Hd. subst qfi d'.
  split; [reflexivity|]. exists meas. split; [reflexivity|].
  assert (Hlen : length (dict_keys d) = length d)
    by (unfold dict_keys; apply length_map).
  split; [rewrite (rmapM_length _ _ _ Hm); exact Hlen|].
  split.
  - intros k row Hrow.
    assert (Hk : (k < length (dict_keys d))%nat).
    { rewrite <- (rmapM_length _ _ _ Hm). apply nth_error_Some. congruence. }
    destruct (nth_error (dict_keys d) k) as [pk|] eqn:Hpk;
      [|apply nth_error_None in Hpk; lia].
    destruct (rmapM_nth _ _ _ _ _ Hm Hpk) as [row' [Hrow' Hnth]].
    rewrite Hnth in Hrow. inversion Hrow; subst.
    rewrite (rmapM_length _ _ _ Hrow'). exact Hlen.
  - intros k l pk pl Hk Hl.
    destruct (rmapM_nth _ _ _ _ _ Hm Hk) as [row [Hrow Hnth]].
    destruct (rmapM_nth _ _ _ _ _ Hrow Hl) as [q [Hq Hnq]].
    exists q. split; [exact Hq|].
    unfold entry. rewrite Hnth. exact Hnq.
Qed.

(** The same for [gradient]. *)
Lemma gradient_returns op d g d' :
  NoDup (dict_keys d) ->
  gradient op d = Ok (g, d') ->
  d' = d /\ length g = length d /\
  (forall k pk, nth_error (dict_keys d) k = Some pk ->
     exists gk, grad_entry op d pk = Ok gk /\ nth_error g k = Some gk).
Proof.
  intros Hnd H. rewrite (gradient_run op d Hnd) in H.
  destruct (rmapM _ (dict_keys d)) as [m|e] eqn:Hm; simpl in H;
    [|discriminate].
  injection H as Hg Hd. subst g d'.
  split; [reflexivity|].
  split.
  - rewrite (rmapM_length _ _ _ Hm). unfold dict_keys. apply length_map.
  - intros k pk Hk. apply (rmapM_nth _ _ _ _ _ Hm Hk).
Qed.

(** [gradient] returns whenever the operator evaluates at every binding
    of the same parameters. *)
Lemma gradient_total op d :
  NoDup (dict_keys d) ->
  (forall d', dict_keys d' = dict_keys d -> exists v, op d' = Ok v) ->
  exists g, gradient op d = Ok (g, d).
Proof.
  intros Hnd Hop. rewrite (gradient_run op d Hnd).
  destruct (rmapM_total (grad_entry op d) (dict_keys d)) as [g Hg].
  - intros p _. unfold grad_entry.
    destruct (Hop (shifted d p (PI / 2)) (dict_keys_shifted _ _ _)) as [v ->].
    destruct (Hop (shifted d p (- (PI / 2))) (dict_keys_shifted _ _ _))
      as [w ->].
    simpl. eexists; reflexivity.
  - rewrite Hg. simpl. eexists; reflexivity.
Qed.

(** [QFI] returns whenever the state binds at every binding of the same
    parameters and every overlap evaluates. *)
Lemma QFI_total state_op d :
  NoDup (dict_keys d) ->
  (forall d', dict_keys d' = dict_keys d ->
              exists st, assign_parameters state_op d' = Ok st) ->
  (forall a b, exists v, braket state_op a b = Ok v) ->
  exists qfi, QFI state_op d = Ok (qfi, d).
Proof.
  intros Hnd Hst Hbr. rewrite (QFI_run state_op d Hnd).
  destruct (Hst d eq_refl) as [meas ->]. simpl.
  assert (Hov : forall d', dict_keys d' = dict_keys d ->
                           exists v, overlap_at state_op meas d' = Ok v).
  { intros d' Hk. unfold overlap_at.
    destruct (Hst d' Hk) as [st ->]. simpl. apply Hbr. }
  assert (Hk2 : forall i a j b,
             dict_keys (shift2 d i a j b) = dict_keys d).
  { intros. unfold shift2. rewrite !dict_keys_shifted. reflexivity. }
  destruct (rmapM_total
              (fun i => rmapM (qfi_stencil state_op meas d i) (dict_keys d))
              (dict_keys d)) as [qfi Hq].
  - intros i _. apply rmapM_total. intros j _. unfold qfi_stencil.
    destruct (Hov _ (Hk2 i (PI / 2) j (PI / 2))) as [v1 ->].
    destruct (Hov _ (Hk2 i (PI / 2) j (- (PI / 2)))) as [v2 ->].
    destruct (Hov _ (Hk2 i (- (PI / 2)) j (- (PI / 2)))) as [v3 ->].
    destruct (Hov _ (Hk2 i (- (PI / 2)) j (PI / 2))) as [v4 ->].
    simpl. eexists; reflexivity.
  - rewrite Hq. simpl. eexists; reflexivity.
Qed.

Lemma dict_get_shifted d p delta q :
  dict_get (shifted d p delta) q =
  match dict_get d q with
  | Some v => Some (if Nat.eqb q p then v + delta else v)
  | None => None
  end.
Proof.
  induction d as [|[r v] d IH]; simpl; [reflexivity|].
  destruct (Nat.eqb_spec r q) as [->|Hne]; [reflexivity|exact IH].
Qed.

Lemma dict_keys_shift_component d k delta :
  dict_keys (shift_component d k delta) = dict_keys d.
Proof.
  revert k; induction d as [|[p v] d IH]; intros [|k]; simpl;
    try reflexivity.
  f_equal. apply IH.
Qed.

(** With distinct keys, moving the value stored under the [k]-th key moves
    the [k]-th entry and nothing else. *)
Lemma shifted_component d k pk delta :
  NoDup (dict_keys d) -> nth_error (dict_keys d) k = Some pk ->
  shifted d pk delta = shift_component d k delta.
Proof.
  revert k; induction d as [|[q w] d IH]; intros [|k] Hnd Hk; simpl in *;
    try discriminate.
  - injection Hk as ->. unfold bump at 1; simpl. rewrite Nat.eqb_refl.
    f_equal. apply shifted_absent. inversion Hnd; assumption.
  - inversion Hnd as [|? ? Hq Hnd']; subst.
    unfold bump at 1; simpl.
    destruct (Nat.eqb_spec q pk) as [->|_].
    + exfalso. apply Hq. apply (nth_error_In _ _ Hk).
    + f_equal. apply IH; assumption.
Qed.

Lemma shift2_component d k l pk pl a b :
  NoDup (dict_keys d) ->
  nth_error (dict_keys d) k = Some pk ->
  nth_error (dict_keys d) l = Some pl ->
  shift2 d pk a pl b = shift_component (shift_component d k a) l b.
Proof.
  intros Hnd Hk Hl. unfold shift2.
  rewrite (shifted_component d k pk a Hnd Hk).
  apply shifted_component; rewrite dict_keys_shift_component; assumption.
Qed.

Lemma nth_key d k :
  (k < length d)%nat -> exists pk, nth_error (dict_keys d) k = Some pk.
Proof.
  intros Hk. destruct (nth_error (dict_keys d) k) as [pk|] eqn:E; eauto.
  apply nth_error_None in E. unfold dict_keys in E.
  rewrite length_map in E. lia.
Qed.

(** * The estimators *)

(** C4. Whenever [gradient(op, parameter_dict)] returns, its result has one
    component per parameter, in the order of the dictionary, and component
    [k] is [0.5 * (p_shift - m_shift)], where [p_shift] and [m_shift] are
    the values of [op] at the input binding with component [k] moved by
    [+pi/2] and by [-pi/2] and every other component at its input value. *)
Theorem gradient_parameter_shift op d g d' :
  NoDup (dict_keys d) ->
  gradient op d = Ok (g, d') ->
  length g = length d /\
  forall k,
    (k < length d)%nat ->
    exists p_shift m_shift,
      op (shift_component d k (PI / 2)) = Ok p_shift /\
      op (shift_component d k (- (PI / 2))) = Ok m_shift /\
      nth_error g k = Some (Cscale (1 / 2) (Csub p_shift m_shift)).
Proof.
  intros Hnd H.
  destruct (gradient_returns op d g d' Hnd H) as [_ [Hlen Hent]].
  split; [exact Hlen|].
  intros k Hlt. destruct (nth_key d k Hlt) as [pk Hk].
  destruct (Hent k pk Hk) as [gk [Hgk Hnth]].
  unfold grad_entry in Hgk.
  rewrite !(shifted_component d k pk _ Hnd Hk) in Hgk.
  destruct (op (shift_component d k (PI / 2))) as [ps|e]; simpl in Hgk;
    [|discriminate].
  destruct (op (shift_component d k (- (PI / 2)))) as [ms|e]; simpl in Hgk;
    [|discriminate].
  exists ps, ms. repeat split. rewrite Hnth. congruence.
Qed.

(** C8. After [gradient] returns and after [QFI] returns, the dictionary
    is the one that was passed in; already each single pass of the inner
    body of [QFI], for an index pair naming one parameter twice or two
    different parameters, leaves it as it found it. *)
Theorem shift_and_restore op state_op d :
  NoDup (dict_keys d) ->
  (forall g d', gradient op d = Ok (g, d') -> d' = d) /\
  (forall qfi d', QFI state_op d = Ok (qfi, d') -> d' = d) /\
  (forall meas i j q d',
      In i (dict_keys d) -> In j (dict_keys d) ->
      QFI_entry state_op meas i j d = Ok (q, d') -> d' = d).
Proof.
  intros Hnd. repeat split.
  - intros g d' H. apply (gradient_returns op d g d' Hnd H).
  - intros qfi d' H. apply (QFI_returns state_op d qfi d' Hnd H).
  - intros meas i j q d' Hi Hj H.
    rewrite (QFI_entry_run state_op meas i j d Hnd Hi Hj) in H.
    destruct (qfi_stencil state_op meas d i j); simpl in H; [|discriminate].
    congruence.
Qed.

(** C1, as the code has it.  Whenever [QFI] returns, entry [(k, l)] is the
    real part of
    [f(k:+pi/2, l:+pi/2)/4 - f(k:+pi/2, l:-pi/2)/4
     - f(k:-pi/2, l:+pi/2)/4 + f(k:-pi/2, l:-pi/2)/4],
    where [f] is the overlap of the state bound at the unshifted dictionary
    with the state bound at the dictionary with components [k] and [l]
    moved as stated, and where for [k = l] the two displacements add up on
    the single component. *)
Theorem metric_tensor_stencil state_op d qfi d' :
  NoDup (dict_keys d) ->
  QFI state_op d = Ok (qfi, d') ->
  exists meas,
    assign_parameters state_op d = Ok meas /\
    forall k l,
      (k < length d)%nat -> (l < length d)%nat ->
      exists fpp fpm fmp fmm,
        overlap_at state_op meas
          (shift_component (shift_component d k (PI / 2)) l (PI / 2))
          = Ok fpp /\
        overlap_at state_op meas
          (shift_component (shift_component d k (PI / 2)) l (- (PI / 2)))
          = Ok fpm /\
        overlap_at state_op meas
          (shift_component (shift_component d k (- (PI / 2))) l (PI / 2))
          = Ok fmp /\
        overlap_at state_op meas
          (shift_component (shift_component d k (- (PI / 2))) l (- (PI / 2)))
          = Ok fmm /\
        entry qfi k l =
          Some (1 / 4 * Re fpp - 1 / 4 * Re fpm
                - 1 / 4 * Re fmp + 1 / 4 * Re fmm).
Proof.
  intros Hnd H.
  destruct (QFI_returns state_op d qfi d' Hnd H)
    as [_ [meas [Hmeas [_ [_ Hent]]]]].
  exists meas. split; [exact Hmeas|].
  intros k l Hklt Hllt.
  destruct (nth_key d k Hklt) as [pk Hk].
  destruct (nth_key d l Hllt) as [pl Hl].
  destruct (Hent k l pk pl Hk Hl) as [q [Hq Hql]].
  unfold qfi_stencil in Hq.
  rewrite !(shift2_component d k l pk pl _ _ Hnd Hk Hl) in Hq.
  destruct (overlap_at state_op meas
              (shift_component (shift_component d k (PI / 2)) l (PI / 2)))
    as [fpp|e]; simpl in Hq; [|discriminate].
  destruct (overlap_at state_op meas
              (shift_component (shift_component d k (PI / 2)) l (- (PI / 2))))
    as [fpm|e]; simpl in Hq; [|discriminate].
  destruct (overlap_at state_op meas
              (shift_component (shift_component d k (- (PI / 2))) l
                 (- (PI / 2))))
    as [fmm|e]; simpl in Hq; [|discriminate].
  destruct (overlap_at state_op meas
              (shift_component (shift_component d k (- (PI / 2))) l (PI / 2)))
    as [fmp|e]; simpl in Hq; [|discriminate].
  exists fpp, fpm, fmp, fmm. repeat split.
  rewrite Hql. injection Hq as <-. f_equal. lra.
Qed.

Lemma qfi_stencil_sym state_op meas d i j q q' :
  qfi_stencil state_op meas d i j = Ok q ->
  qfi_stencil state_op meas d j i = Ok q' ->
  q = q'.
Proof.
  unfold qfi_stencil, shift2. intros H H'.
  rewrite (shifted_swap d j i (PI / 2) (PI / 2)) in H'.
  rewrite (shifted_swap d j i (PI / 2) (- (PI / 2))) in H'.
  rewrite (shifted_swap d j i (- (PI / 2)) (- (PI / 2))) in H'.
  rewrite (shifted_swap d j i (- (PI / 2)) (PI / 2)) in H'.
  destruct (overlap_at state_op meas
              (shifted (shifted d i (PI / 2)) j (PI / 2)))
    as [fpp|e]; simpl in H, H'; [|discriminate].
  destruct (overlap_at state_op meas
              (shifted (shifted d i (PI / 2)) j (- (PI / 2))))
    as [fpm|e]; simpl in H; [|discriminate].
  destruct (overlap_at state_op meas
              (shifted (shifted d i (- (PI / 2))) j (PI / 2)))
    as [fmp|e]; simpl in H'; [|discriminate].
  destruct (overlap_at state_op meas
              (shifted (shifted d i (- (PI / 2))) j (- (PI / 2))))
    as [fmm|e]; simpl in H, H'; [|discriminate].
  simpl in H, H'. injection H as <-. injection H' as <-. lra.
Qed.

(** C9. Whenever [QFI] returns, the array it returns is symmetric. *)
Theorem metric_tensor_symmetric state_op d qfi d' :
  NoDup (dict_keys d) ->
  QFI state_op d = Ok (qfi, d') ->
  forall k l, entry qfi k l = entry qfi l k.
Proof.
  intros Hnd H k l.
  destruct (QFI_returns state_op d qfi d' Hnd H)
    as [_ [meas [_ [Hlen [Hrows Hent]]]]].
  assert (Hkeys : length (dict_keys d) = length d)
    by (unfold dict_keys; apply length_map).
  assert (Hout : forall a b, (length d <= a)%nat -> entry qfi a b = None /\
                                                 entry qfi b a = None).
  { intros a b Ha. unfold entry. split.
    - rewrite (proj2 (nth_error_None qfi a)) by lia. reflexivity.
    - destruct (nth_error qfi b) as [row|] eqn:Hrow; [|reflexivity].
      apply nth_error_None. rewrite (Hrows b row Hrow). exact Ha. }
  destruct (Nat.lt_ge_cases k (length d)) as [Hk|Hk];
    [|destruct (Hout k l Hk) as [-> ->]; reflexivity].
  destruct (Nat.lt_ge_cases l (length d)) as [Hl|Hl];
    [|destruct (Hout l k Hl) as [-> ->]; reflexivity].
  destruct (nth_error (dict_keys d) k) as [pk|] eqn:Hpk;
    [|apply nth_error_None in Hpk; lia].
  destruct (nth_error (dict_keys d) l) as [pl|] eqn:Hpl;
    [|apply nth_error_None in Hpl; lia].
  destruct (Hent k l pk pl Hpk Hpl) as [q [Hq ->]].
  destruct (Hent l k pl pk Hpl Hpk) as [q' [Hq' ->]].
  f_equal. exact (qfi_stencil_sym state_op meas d pk pl q q' Hq Hq').
Qed.

(** ** Pauli-rotation ansaetze *)

(** C5. For an ansatz of unit norm in which every key of the dictionary is
    the angle of a Pauli rotation, every diagonal entry of the array that
    [QFI] returns is [-0.5], whatever the parameter values. *)
Theorem metric_tensor_diagonal state_op d qfi d' :
  unit_norm state_op ->
  (forall p, In p (dict_keys d) -> rotation_angle state_op p) ->
  NoDup (dict_keys d) ->
  QFI state_op d = Ok (qfi, d') ->
  forall k, (k < length d)%nat -> entry qfi k k = Some (- (1 / 2)).
Proof.
  intros Hunit Hrot Hnd H k Hk.
  destruct (QFI_returns state_op d qfi d' Hnd H)
    as [_ [meas [Hmeas [_ [_ Hent]]]]].
  assert (Hkeys : length (dict_keys d) = length d)
    by (unfold dict_keys; apply length_map).
  destruct (nth_error (dict_keys d) k) as [pk|] eqn:Hpk;
    [|apply nth_error_None in Hpk; lia].
  destruct (Hent k k pk pk Hpk Hpk) as [q [Hq ->]]. f_equal.
  assert (Hself : overlap_at state_op meas d = Ok (RtoC 1)).
  { unfold overlap_at. rewrite Hmeas. simpl. apply (Hunit d meas Hmeas). }
  unfold qfi_stencil, shift2 in Hq.
  rewrite !shifted_same in Hq.
  replace (PI / 2 + PI / 2) with PI in Hq by lra.
  replace (PI / 2 + - (PI / 2)) with 0 in Hq by lra.
  replace (- (PI / 2) + - (PI / 2)) with (- PI) in Hq by lra.
  replace (- (PI / 2) + PI / 2) with 0 in Hq by lra.
  rewrite shifted_zero, Hself in Hq.
  destruct (overlap_at state_op meas (shifted d pk PI)) as [v|e] eqn:Hv;
    simpl in Hq; [|discriminate].
  rewrite (Hrot pk (nth_error_In _ _ Hpk) meas d v Hv) in Hq.
  simpl in Hq. injection Hq as <-. lra.
Qed.

(** * The estimators on the concrete ansatz *)

Ltac nodup_keys :=
  simpl; repeat (constructor; [simpl; intuition discriminate|]); constructor.

Lemma gradient_parameter_shift_witness :
  exists g d',
    gradient (ry_chain_Z [0%nat; 1%nat] 1) origin2 = Ok (g, d') /\
    length g = 2%nat /\
    forall k,
      (k < 2)%nat ->
      exists p_shift m_shift,
        ry_chain_Z [0%nat; 1%nat] 1 (shift_component origin2 k (PI / 2))
          = Ok p_shift /\
        ry_chain_Z [0%nat; 1%nat] 1 (shift_component origin2 k (- (PI / 2)))
          = Ok m_shift /\
        nth_error g k = Some (Cscale (1 / 2) (Csub p_shift m_shift)).
Proof.
  eexists. eexists. split; [reflexivity|].
  eapply (gradient_parameter_shift (ry_chain_Z [0%nat; 1%nat] 1) origin2).
  - nodup_keys.
  - reflexivity.
Defined.

Ltac eval_cos :=
  cbn [fold_right];
  repeat match goal with
  | |- context [cos ?x] =>
      first
        [ replace (cos x) with 1
            by (symmetry; replace x with 0 by lra; apply cos_0)
        | replace (cos x) with 0
            by (symmetry; replace x with (PI / 2) by lra; apply cos_PI2)
        | replace (cos x) with 0
            by (symmetry; replace x with (- (PI / 2)) by lra;
                rewrite cos_neg; apply cos_PI2)
        | replace (cos x) with (-1)
            by (symmetry; replace x with PI by lra; apply cos_PI) ]
  end.

Ltac run_shifts := unfold shift2, shifted, bump; cbn [map fst snd Nat.eqb].

Lemma inner_ry a b : inner (ry_state a) (ry_state b) = cos ((b - a) / 2).
Proof.
  unfold inner, ry_state; simpl.
  replace ((b - a) / 2) with (b / 2 - a / 2) by lra.
  rewrite cos_minus. lra.
Qed.

Lemma ry_state_turn a b :
  b = a - 2 * PI -> ry_state b = (- fst (ry_state a), - snd (ry_state a)).
Proof.
  intros ->. unfold ry_state; simpl.
  replace ((a - 2 * PI) / 2) with (a / 2 - PI) by lra.
  rewrite cos_minus, sin_minus, cos_PI, sin_PI. f_equal; lra.
Qed.

Lemma ry_unit_norm ps : unit_norm (ry_chain ps).
Proof.
  intros d st H. simpl in *.
  destruct (total_angle ps d) as [s|e]; simpl in H; [|discriminate].
  injection H as <-. rewrite inner_ry.
  replace ((s - s) / 2) with 0 by lra. rewrite cos_0. reflexivity.
Qed.

Lemma ry2_rotation_angle p :
  In p [0%nat; 1%nat] -> rotation_angle (ry_chain [0%nat; 1%nat]) p.
Proof.
  intros Hp meas d v. unfold overlap_at. simpl.
  unfold total_angle, lookup_all. simpl.
  rewrite !dict_get_shifted.
  destruct (dict_get d 0%nat) as [x|]; [|discriminate].
  destruct (dict_get d 1%nat) as [y|]; [|discriminate].
  simpl. intros H. injection H as <-.
  destruct Hp as [<-|[<-|[]]]; simpl;
    match goal with
    | |- context [inner meas (ry_state ?b)] =>
        match goal with
        | |- context [Cscale _ (RtoC (inner meas (ry_state ?a)))] =>
            rewrite (ry_state_turn a b) by lra
        end
    end;
    unfold inner, Cscale, RtoC; simpl; do 2 f_equal; lra.
Qed.

Lemma ry2_overlap m x y :
  overlap_at (ry_chain [0%nat; 1%nat]) (ry_state m) [(0%nat, x); (1%nat, y)]
  = Ok (RtoC (cos ((x + y - m) / 2))).
Proof.
  unfold overlap_at. simpl. rewrite inner_ry. do 3 f_equal. lra.
Qed.

(** On two RY rotations of one qubit, at the origin, [QFI] puts [-1/2] at
    position [(0, 1)], where the stencil as specified evaluates to [0]. *)
Lemma metric_tensor_stencil_counterexample :
  exists meas qfi d',
    assign_parameters (ry_chain [0%nat; 1%nat]) [(0%nat, 0); (1%nat, 0)]
      = Ok meas /\
    QFI (ry_chain [0%nat; 1%nat]) [(0%nat, 0); (1%nat, 0)] = Ok (qfi, d') /\
    entry qfi 0 1 = Some (- (1 / 2)) /\
    stencil_as_specified (ry_chain [0%nat; 1%nat]) meas
      [(0%nat, 0); (1%nat, 0)] 0%nat 1%nat = Ok (RtoC 0) /\
    RtoC (- (1 / 2)) <> RtoC 0.
Proof.
  eexists. eexists. eexists.
  split; [reflexivity|]. split; [reflexivity|].
  split; [|split].
  - cbn [entry nth_error]. f_equal.
    unfold store_add, store_sub, Cadd, Csub, Cdiv, RtoC. cbn [Re Im].
    rewrite !inner_ry. eval_cos. lra.
  - unfold stencil_as_specified. cbn [shift_component].
    rewrite !ry2_overlap. cbn [rbind].
    eval_cos. f_equal. apply C_eq; simpl; lra.
  - intros E. apply (f_equal Re) in E. simpl in E. lra.
Qed.

Lemma metric_tensor_stencil_witness :
  exists qfi d',
    QFI two_ry origin2 = Ok (qfi, d') /\
    exists meas,
      assign_parameters two_ry origin2 = Ok meas /\
      forall k l,
        (k < 2)%nat -> (l < 2)%nat ->
        exists fpp fpm fmp fmm,
          overlap_at two_ry meas
            (shift_component (shift_component origin2 k (PI / 2)) l (PI / 2))
            = Ok fpp /\
          overlap_at two_ry meas
            (shift_component (shift_component origin2 k (PI / 2)) l
               (- (PI / 2)))
            = Ok fpm /\
          overlap_at two_ry meas
            (shift_component (shift_component origin2 k (- (PI / 2))) l
               (PI / 2))
            = Ok fmp /\
          overlap_at two_ry meas
            (shift_component (shift_component origin2 k (- (PI / 2))) l
               (- (PI / 2)))
            = Ok fmm /\
          entry qfi k l =
            Some (1 / 4 * Re fpp - 1 / 4 * Re fpm
                  - 1 / 4 * Re fmp + 1 / 4 * Re fmm).
Proof.
  eexists. eexists. split; [reflexivity|].
  eapply (metric_tensor_stencil two_ry origin2).
  - nodup_keys.
  - reflexivity.
Defined.

Lemma metric_tensor_symmetric_witness :
  exists qfi d',
    QFI two_ry origin2 = Ok (qfi, d') /\
    forall k l, entry qfi k l = entry qfi l k.
Proof.
  eexists. eexists. split; [reflexivity|].
  eapply (metric_tensor_symmetric two_ry origin2).
  - nodup_keys.
  - reflexivity.
Defined.

Lemma metric_tensor_diagonal_witness :
  exists qfi d',
    QFI two_ry origin2 = Ok (qfi, d') /\
    forall k, (k < 2)%nat -> entry qfi k k = Some (- (1 / 2)).
Proof.
  eexists. eexists. split; [reflexivity|].
  eapply (metric_tensor_diagonal two_ry origin2).
  - apply ry_unit_norm.
  - intros p Hp. apply ry2_rotation_angle. exact Hp.
  - nodup_keys.
  - reflexivity.
Defined.

Lemma shift_and_restore_witness :
  exists g d1 qfi d2 q d3,
    gradient (ry_chain_Z [0%nat; 1%nat] 1) origin2 = Ok (g, d1) /\
    QFI two_ry origin2 = Ok (qfi, d2) /\
    QFI_entry two_ry (ry_state 0) 0%nat 0%nat origin2 = Ok (q, d3) /\
    d1 = origin2 /\ d2 = origin2 /\ d3 = origin2.
Proof.
  assert (Hnd : NoDup (dict_keys origin2)) by nodup_keys.
  destruct (shift_and_restore (ry_chain_Z [0%nat; 1%nat] 1) two_ry origin2 Hnd)
    as [Hg [Hq He]].
  do 6 eexists.
  split; [reflexivity|]. split; [reflexivity|].
  split; [vm_compute; reflexivity|].
  split; [|split].
  - eapply Hg. reflexivity.
  - eapply Hq. reflexivity.
  - eapply (He (ry_state 0) 0%nat 0%nat).
    + simpl; auto.
    + simpl; auto.
    + vm_compute; reflexivity.
Defined.

(** * The regularized system *)

Lemma nth_error_zip_with {A B D} (f : A -> B -> D) a b k x y :
  nth_error a k = Some x -> nth_error b k = Some y ->
  nth_error (zip_with f a b) k = Some (f x y).
Proof.
  revert b k; induction a as [|x0 a IH]; intros [|y0 b] [|k]; simpl;
    try discriminate.
  - intros Hx Hy. injection Hx as ->. injection Hy as ->. reflexivity.
  - apply IH.
Qed.

(** Entry [(i, j)] of [qfi + alpha * np.diag(qfi)] is
    [qfi[i, j] + alpha * qfi[j, j]], on and off the diagonal. *)
Lemma regularized_entry m i j x y :
  entry m i j = Some x -> entry m j j = Some y ->
  entry (regularized m) i j = Some (x + alpha * y).
Proof.
  unfold entry, regularized, mat_add_vec. intros Hx Hy.
  rewrite nth_error_map.
  destruct (nth_error m i) as [row|]; [|discriminate]. simpl.
  apply nth_error_zip_with; [exact Hx|].
  destruct (nth_error m j) as [rowj|] eqn:Hj; [|discriminate].
  rewrite nth_error_map. unfold np_diag. rewrite nth_error_map.
  assert (Hlt : (j < length m)%nat) by (apply nth_error_Some; congruence).
  rewrite (nth_error_nth' _ 0%nat) by (rewrite length_seq; exact Hlt).
  rewrite seq_nth by exact Hlt. simpl.
  rewrite (nth_error_nth m j [] Hj), (nth_error_nth rowj j 0 Hy).
  reflexivity.
Qed.

(** C3.  For the metric tensor [[-1/2, 0], [0, -1/2]] the matrix that [QNG]
    hands to the solver has [alpha * -1/2] in both off-diagonal positions:
    the regularizer is not confined to the diagonal. *)
Theorem regularizer_off_diagonal :
  regularized [[- (1 / 2); 0]; [0; - (1 / 2)]]
  = [[- (1 / 2) + alpha * - (1 / 2); 0 + alpha * - (1 / 2)];
     [0 + alpha * - (1 / 2); - (1 / 2) + alpha * - (1 / 2)]]
  /\ 0 + alpha * - (1 / 2) <> 0.
Proof.
  split; [reflexivity|]. unfold alpha. lra.
Qed.

(** * The integrator *)

Lemma get_gibbs_state_params_repeat lstsq G op params theta grid :
  get_gibbs_state_params lstsq G op params theta grid
  = repeat_update (length grid) (euler_update lstsq G op params) theta.
Proof.
  revert theta; induction grid as [|s grid IH]; intros theta; simpl;
    [reflexivity|].
  destruct (euler_update lstsq G op params theta); simpl; auto.
Qed.

Lemma euler_update_inv lstsq G op params theta0 theta1 :
  euler_update lstsq G op params theta0 = Ok theta1 ->
  exists qng d',
    QNG lstsq op (ansatz_op G) (dict_zip params theta0) = Ok (qng, d') /\
    num_time_steps G <> 0%Z /\
    np_subtract theta0
      (map (Rmult (t G / IZR (num_time_steps G))) (map Re qng)) = Ok theta1.
Proof.
  unfold euler_update, step_size. intros H.
  destruct (QNG lstsq op (ansatz_op G) (dict_zip params theta0))
    as [[qng d']|e]; simpl in H; [|discriminate].
  destruct (Z.eqb_spec (num_time_steps G) 0) as [E|E]; simpl in H;
    [discriminate|].
  exists qng, d'. auto.
Qed.

Lemma np_subtract_nth a b c k x y :
  length b = length a -> np_subtract a b = Ok c ->
  nth_error a k = Some x -> nth_error b k = Some y ->
  nth_error c k = Some (x - y).
Proof.
  unfold np_subtract, broadcast2. intros Hlen.
  rewrite Hlen, Nat.eqb_refl. intros H. injection H as <-.
  apply nth_error_zip_with.
Qed.

Lemma np_subtract_length a b c :
  length b = length a -> np_subtract a b = Ok c -> length c = length a.
Proof.
  unfold np_subtract, broadcast2. intros Hlen.
  rewrite Hlen, Nat.eqb_refl. intros H. injection H as <-.
  revert b Hlen; induction a as [|x a IH]; intros [|y b] Hlen; simpl in *;
    try discriminate; [reflexivity|].
  f_equal. apply IH. lia.
Qed.

(** C2, as the code has it.  The integrator performs one update for each
    point of the time grid, whose values it never reads; each update that
    returns replaces the parameter vector by
    [np.subtract(theta, t/num_time_steps * Re(natural gradient))], with [t]
    and [num_time_steps] the module-level globals: when the natural
    gradient has as many entries as the vector, the new vector has that
    many entries too and entry [k] is
    [theta[k] - t/num_time_steps * Re(natural gradient[k])]. *)
Theorem one_update_per_grid_point lstsq G op params theta grid :
  get_gibbs_state_params lstsq G op params theta grid
  = repeat_update (length grid) (euler_update lstsq G op params) theta /\
  forall theta0 theta1,
    euler_update lstsq G op params theta0 = Ok theta1 ->
    exists qng d',
      QNG lstsq op (ansatz_op G) (dict_zip params theta0) = Ok (qng, d') /\
      num_time_steps G <> 0%Z /\
      np_subtract theta0
        (map (Rmult (t G / IZR (num_time_steps G))) (map Re qng))
      = Ok theta1 /\
      (length qng = length theta0 ->
       length theta1 = length theta0 /\
       forall k x v,
         nth_error theta0 k = Some x -> nth_error qng k = Some v ->
         nth_error theta1 k
         = Some (x - t G / IZR (num_time_steps G) * Re v)).
Proof.
  split; [apply get_gibbs_state_params_repeat|].
  intros theta0 theta1 H.
  destruct (euler_update_inv lstsq G op params theta0 theta1 H)
    as [qng [d' [Hq [Hn Hs]]]].
  exists qng, d'. repeat split; try assumption.
  - apply (np_subtract_length theta0 _ theta1) with (2 := Hs).
    rewrite !length_map. assumption.
  - intros k x v Hx Hv.
    apply (np_subtract_nth theta0 _ theta1 k x _ ) with (3 := Hx) (2 := Hs).
    + rewrite !length_map. assumption.
    + rewrite !nth_error_map, Hv. reflexivity.
Qed.

(** C10, as the code has it.  Besides its arguments the integrator reads
    the globals [t], [num_time_steps] and [ansatz_op]: its result is
    determined by [op], the ordered parameters, the initial vector, the
    length of the grid, [ansatz_op] and the quotient [t/num_time_steps]. *)
Theorem propagation_depends_on lstsq G G' op params theta grid grid' :
  ansatz_op G = ansatz_op G' ->
  step_size G = step_size G' ->
  length grid = length grid' ->
  get_gibbs_state_params lstsq G op params theta grid
  = get_gibbs_state_params lstsq G' op params theta grid'.
Proof.
  intros Ha Hs Hl. rewrite !get_gibbs_state_params_repeat, Hl.
  assert (Hupd : forall x, euler_update lstsq G op params x
                           = euler_update lstsq G' op params x).
  { intros x. unfold euler_update. rewrite Ha, Hs. reflexivity. }
  clear Hl. revert theta.
  induction (length grid') as [|n IH]; intros theta; simpl; [reflexivity|].
  rewrite Hupd. destruct (euler_update lstsq G' op params theta); simpl; auto.
Qed.

(** ** The one-rotation ansatz in closed form *)

Lemma expect_Z_ry c s : expect_Z c (ry_state s) = RtoC (c * cos s).
Proof.
  unfold expect_Z, ry_state; simpl. f_equal. f_equal.
  rewrite <- (cos_2a (s / 2)). f_equal. lra.
Qed.

Lemma ry1_gradient c x :
  gradient (ry_chain_Z [0%nat] c) [(0%nat, x)]
  = Ok ([mkC (- (c * sin x)) 0], [(0%nat, x)]).
Proof.
  rewrite gradient_run by nodup_keys.
  cbn [dict_keys map fst rmapM]. unfold grad_entry. run_shifts.
  unfold ry_chain_Z, total_angle, lookup_all.
  cbn [rmapM dict_get Nat.eqb rbind fold_right].
  rewrite !expect_Z_ry. do 3 f_equal.
  apply C_eq; simpl; [|lra].
  replace (x + PI / 2 + 0) with (x + PI / 2) by lra.
  replace (x + - (PI / 2) + 0) with (x - PI / 2) by lra.
  rewrite cos_plus, cos_minus, cos_PI2, sin_PI2. lra.
Qed.

Lemma ry1_QFI x :
  QFI (ry_chain [0%nat]) [(0%nat, x)] = Ok ([[- (1 / 2)]], [(0%nat, x)]).
Proof.
  rewrite QFI_run by nodup_keys.
  cbn [ry_chain assign_parameters]. unfold total_angle, lookup_all.
  cbn [rmapM dict_get Nat.eqb rbind fold_right dict_keys map fst].
  unfold qfi_stencil, overlap_at. run_shifts.
  cbn [ry_chain assign_parameters braket]. unfold total_angle, lookup_all.
  cbn [rmapM dict_get Nat.eqb rbind fold_right Re RtoC].
  rewrite !inner_ry. eval_cos. do 4 f_equal. lra.
Qed.

Lemma alpha_pos : 0 < alpha.
Proof. unfold alpha. lra. Qed.

Lemma ry1_QNG c x :
  QNG lstsq_1x1 (ry_chain_Z [0%nat] c) (ry_chain [0%nat]) [(0%nat, x)]
  = Ok ([Cdiv (mkC (- (c * sin x)) 0) (- (1 / 2) + alpha * - (1 / 2))],
        [(0%nat, x)]).
Proof.
  unfold QNG, bind. rewrite ry1_gradient, ry1_QFI.
  unfold call, regularized, mat_add_vec, np_diag.
  cbn [length seq map nth zip_with lstsq_1x1].
  destruct (Req_dec_T (- (1 / 2) + alpha * - (1 / 2)) 0) as [E|_];
    [|reflexivity].
  pose proof alpha_pos. lra.
Qed.

Lemma ry1_euler_update t0 n c x :
  n <> 0%Z ->
  euler_update lstsq_1x1 (ry1_globals t0 n) (ry_chain_Z [0%nat] c)
    [0%nat] [x]
  = Ok [x - t0 / IZR n * (2 * c * sin x / (1 + alpha))].
Proof.
  intros Hn. unfold euler_update.
  change (dict_zip [0%nat] [x]) with [(0%nat, x)].
  cbn [ansatz_op ry1_globals]. rewrite ry1_QNG.
  cbn [rbind fst map Re Cdiv]. unfold step_size.
  cbn [num_time_steps t ry1_globals].
  destruct (Z.eqb_spec n 0) as [E|_]; [contradiction|].
  cbn [rbind map]. unfold np_subtract, broadcast2.
  cbn [length Nat.eqb zip_with]. do 2 f_equal.
  pose proof alpha_pos.
  assert (IZR n <> 0) by (apply not_0_IZR; assumption).
  field. repeat split; (assumption || lra).
Qed.

Lemma ry1_real_natural_gradient c x :
  real_natural_gradient lstsq_1x1 (ry_chain_Z [0%nat] c) (ry_chain [0%nat])
    [0%nat] [x]
  = Ok [2 * c * sin x / (1 + alpha)].
Proof.
  unfold real_natural_gradient.
  change (dict_zip [0%nat] [x]) with [(0%nat, x)].
  rewrite ry1_QNG. cbn [rbind fst map Re Cdiv]. do 2 f_equal.
  pose proof alpha_pos. field. lra.
Qed.

Lemma cos_lt_1 y : 0 < y -> y < PI -> cos y < 1.
Proof.
  intros H0 H1. rewrite <- cos_0.
  apply cos_decreasing_1; lra.
Qed.

Lemma one_update_per_grid_point_counterexample :
  exists a b,
    get_gibbs_state_params lstsq_1x1 (ry1_globals (1 / 2) 2)
      (ry_chain_Z [0%nat] 1) [0%nat] [PI / 2] [0; 1 / 2] = Ok [a] /\
    propagate_as_specified
      (real_natural_gradient lstsq_1x1 (ry_chain_Z [0%nat] 1)
         (ry_chain [0%nat]) [0%nat])
      [PI / 2] [0; 1 / 2] = Ok [b] /\
    a <> b.
Proof.
  eexists. eexists. split; [|split].
  - cbn [get_gibbs_state_params].
    rewrite ry1_euler_update by discriminate. cbn [rbind].
    rewrite ry1_euler_update by discriminate. cbn [rbind]. reflexivity.
  - cbn [propagate_as_specified].
    rewrite ry1_real_natural_gradient. cbn [rbind map].
    unfold np_subtract, broadcast2. cbn [length Nat.eqb zip_with rbind].
    reflexivity.
  - rewrite sin_PI2.
    pose proof alpha_pos as Ha.
    set (y := 1 / (2 * (1 + alpha))).
    assert (Hy0 : 0 < y).
    { unfold y. apply Rdiv_lt_0_compat; lra. }
    assert (Hy1 : y < 1).
    { unfold y. apply (Rmult_lt_reg_r (2 * (1 + alpha))); [lra|].
      unfold Rdiv. rewrite Rmult_assoc, Rinv_l by lra. lra. }
    assert (E1 : 1 / 2 / 2 * (2 * 1 * 1 / (1 + alpha)) = y).
    { unfold y. field; lra. }
    rewrite E1.
    assert (Es : sin (PI / 2 - y) = cos y).
    { apply sin_shift. }
    rewrite Es.
    assert (E2 : 1 / 2 / 2 * (2 * 1 * cos y / (1 + alpha)) = y * cos y).
    { unfold y. field; lra. }
    rewrite E2.
    assert (E3 : (1 / 2 - 0) * (2 * 1 * 1 / (1 + alpha)) = 2 * y).
    { unfold y. field; lra. }
    rewrite E3.
    pose proof PI2_1 as Hpi.
    assert (Hc : cos y < 1) by (apply cos_lt_1; lra).
    intros E. nra.
Qed.

Lemma propagation_depends_on_counterexample :
  exists a b,
    get_gibbs_state_params lstsq_1x1 (ry1_globals (1 / 2) 2)
      (ry_chain_Z [0%nat] 1) [0%nat] [PI / 2] [0; 1 / 2] = Ok [a] /\
    get_gibbs_state_params lstsq_1x1 (ry1_globals 1 2)
      (ry_chain_Z [0%nat] 1) [0%nat] [PI / 2] [0; 1 / 2] = Ok [b] /\
    a <> b.
Proof.
  eexists. eexists. split; [|split].
  - cbn [get_gibbs_state_params].
    rewrite ry1_euler_update by discriminate. cbn [rbind].
    rewrite ry1_euler_update by discriminate. cbn [rbind]. reflexivity.
  - cbn [get_gibbs_state_params].
    rewrite ry1_euler_update by discriminate. cbn [rbind].
    rewrite ry1_euler_update by discriminate. cbn [rbind]. reflexivity.
  - rewrite sin_PI2.
    pose proof alpha_pos as Ha.
    set (y := 1 / (2 * (1 + alpha))).
    assert (Hy0 : 0 < y).
    { unfold y. apply Rdiv_lt_0_compat; lra. }
    assert (Hy1 : 2 * y < 1).
    { unfold y. apply (Rmult_lt_reg_r (2 * (1 + alpha))); [lra|].
      unfold Rdiv. rewrite (Rmult_assoc 2), Rmult_assoc, Rinv_l by lra. lra. }
    assert (E1 : 1 / 2 / 2 * (2 * 1 * 1 / (1 + alpha)) = y).
    { unfold y. field; lra. }
    rewrite E1.
    rewrite (sin_shift y).
    assert (E2 : 1 / 2 / 2 * (2 * 1 * cos y / (1 + alpha)) = y * cos y).
    { unfold y. field; lra. }
    rewrite E2.
    assert (E3 : 1 / 2 * (2 * 1 * 1 / (1 + alpha)) = 2 * y).
    { unfold y. field; lra. }
    rewrite E3.
    rewrite (sin_shift (2 * y)).
    assert (E4 : 1 / 2 * (2 * 1 * cos (2 * y) / (1 + alpha))
                 = 2 * y * cos (2 * y)).
    { unfold y. field; lra. }
    rewrite E4.
    pose proof PI2_1 as Hpi.
    assert (Hc : cos y <= 1) by (apply COS_bound).
    assert (Hc2 : 0 < cos (2 * y)) by (apply cos_gt_0; lra).
    intros E. nra.
Qed.

Lemma one_update_per_grid_point_witness :
  exists theta1 qng d',
    euler_update lstsq_1x1 (ry1_globals (1 / 2) 2) (ry_chain_Z [0%nat] 1)
      [0%nat] [PI / 2] = Ok theta1 /\
    QNG lstsq_1x1 (ry_chain_Z [0%nat] 1) (ry_chain [0%nat])
      (dict_zip [0%nat] [PI / 2]) = Ok (qng, d') /\
    np_subtract [PI / 2] (map (Rmult (1 / 2 / 2)) (map Re qng))
    = Ok theta1 /\
    length theta1 = 1%nat /\
    forall k x v,
      nth_error [PI / 2] k = Some x -> nth_error qng k = Some v ->
      nth_error theta1 k = Some (x - 1 / 2 / 2 * Re v).
Proof.
  eexists.
  destruct (one_update_per_grid_point lstsq_1x1 (ry1_globals (1 / 2) 2)
              (ry_chain_Z [0%nat] 1) [0%nat] [PI / 2] [0; 1 / 2])
    as [_ H].
  destruct (H [PI / 2] _
              (ry1_euler_update (1 / 2) 2 1 (PI / 2) ltac:(discriminate)))
    as [qng [d' [Hq [_ [Hs Hk]]]]].
  exists qng, d'. split; [apply ry1_euler_update; discriminate|].
  split; [exact Hq|]. split; [exact Hs|].
  apply Hk.
  change (dict_zip [0%nat] [PI / 2]) with [(0%nat, PI / 2)] in Hq.
  cbn [ansatz_op ry1_globals] in Hq. rewrite ry1_QNG in Hq.
  injection Hq as <- _. reflexivity.
Defined.

Lemma propagation_depends_on_witness :
  get_gibbs_state_params lstsq_1x1 (ry1_globals (1 / 2) 2)
    (ry_chain_Z [0%nat] 1) [0%nat] [PI / 2] [0; 1 / 2]
  = get_gibbs_state_params lstsq_1x1 (ry1_globals 1 4)
      (ry_chain_Z [0%nat] 1) [0%nat] [PI / 2] [0; 1].
Proof.
  apply propagation_depends_on.
  - reflexivity.
  - unfold step_size. simpl. f_equal. lra.
  - reflexivity.
Defined.

(** * Binding a parameter vector *)

Lemma dict_set_absent d p v :
  ~ In p (dict_keys d) -> dict_set d p v = d ++ [(p, v)].
Proof.
  induction d as [|[q w] d IH]; simpl; intros H; [reflexivity|].
  destruct (Nat.eqb_spec q p) as [->|_]; [tauto|].
  f_equal. apply IH. tauto.
Qed.

Lemma dict_of_app acc pairs :
  NoDup (dict_keys acc ++ map fst pairs) ->
  fold_left (fun d kv => dict_set d (fst kv) (snd kv)) pairs acc
  = acc ++ pairs.
Proof.
  revert acc; induction pairs as [|[p v] pairs IH]; intros acc H; simpl.
  - rewrite app_nil_r. reflexivity.
  - simpl in H.
    rewrite dict_set_absent.
    + rewrite IH.
      * rewrite <- app_assoc. reflexivity.
      * unfold dict_keys. rewrite map_app. simpl.
        rewrite <- app_assoc. exact H.
    + apply NoDup_remove_2 in H. intros Hin. apply H.
      apply in_or_app. left. exact Hin.
Qed.

Lemma dict_of_nodup pairs : NoDup (map fst pairs) -> dict_of pairs = pairs.
Proof. intros H. unfold dict_of. apply (dict_of_app [] pairs). exact H. Qed.

Lemma map_fst_combine {A B} (l : list A) (l' : list B) :
  map fst (combine l l') = firstn (length l') l.
Proof.
  revert l'; induction l as [|a l IH]; intros [|b l']; simpl; auto.
  - f_equal. apply IH.
Qed.

Lemma In_firstn {A} n (l : list A) x : In x (firstn n l) -> In x l.
Proof.
  revert n; induction l as [|a l IH]; intros [|n]; simpl; try tauto.
  intros [->|H]; [left; reflexivity|right; apply (IH n H)].
Qed.

Lemma NoDup_firstn_keys {A} n (l : list A) : NoDup l -> NoDup (firstn n l).
Proof.
  revert n; induction l as [|a l IH]; intros [|n] H; simpl;
    try constructor.
  - inversion H as [|? ? Hn Hl]; subst.
    intros Hin. apply Hn. apply (In_firstn n l a Hin).
  - inversion H; subst. apply IH. assumption.
Qed.

(** C7, as the code has it.  There is no dimension check: the binding
    [dict(zip(keys, theta))] is the binding of the first [len(keys)] entries
    of [theta], so an operator or a state evaluated at a vector that is too
    long gives what it gives at the truncated vector; and for distinct keys
    a vector that is too short binds exactly the first [len(theta)]
    parameters, leaving the others unbound. *)
Theorem binding_ignores_surplus keys theta (op : operator)
    (state_op : StateFn) :
  op (dict_zip keys theta) = op (dict_zip keys (firstn (length keys) theta)) /\
  assign_parameters state_op (dict_zip keys theta)
  = assign_parameters state_op (dict_zip keys (firstn (length keys) theta)) /\
  (NoDup keys ->
   dict_keys (dict_zip keys theta) = firstn (length theta) keys).
Proof.
  assert (E : dict_zip keys theta
              = dict_zip keys (firstn (length keys) theta)).
  { unfold dict_zip. rewrite <- combine_firstn_l. reflexivity. }
  rewrite <- E. repeat split.
  intros Hnd. unfold dict_zip.
  rewrite dict_of_nodup; unfold dict_keys; rewrite map_fst_combine.
  - reflexivity.
  - apply NoDup_firstn_keys. exact Hnd.
Qed.

Lemma binding_ignores_surplus_witness :
  ry_chain_Z [0%nat] 1 (dict_zip [0%nat] [0; 7])
  = ry_chain_Z [0%nat] 1 (dict_zip [0%nat] (firstn 1 [0; 7])) /\
  dict_keys (dict_zip [0%nat; 1%nat] [7]) = [0%nat].
Proof.
  split.
  - apply (binding_ignores_surplus [0%nat] [0; 7] (ry_chain_Z [0%nat] 1)
             (ry_chain [0%nat])).
  - apply (binding_ignores_surplus [0%nat; 1%nat] [7] (ry_chain_Z [0%nat] 1)
             (ry_chain [0%nat])).
    repeat (constructor; [simpl; intuition discriminate|]); constructor.
Defined.

Lemma binding_ignores_surplus_counterexample :
  length [0; 7] <> length [0%nat] /\
  (exists st,
      assign_parameters (ry_chain [0%nat]) (dict_zip [0%nat] [0; 7])
      = Ok st) /\
  (exists v, ry_chain_Z [0%nat] 1 (dict_zip [0%nat] [0; 7]) = Ok v) /\
  (exists theta,
      euler_update lstsq_1x1 (ry1_globals (1 / 2) 2) (ry_chain_Z [0%nat] 1)
        [0%nat] [0; 7] = Ok theta).
Proof.
  split; [simpl; discriminate|].
  split; [eexists; reflexivity|].
  split; [eexists; reflexivity|].
  unfold euler_update.
  change (dict_zip [0%nat] [0; 7]) with [(0%nat, 0)].
  cbn [ansatz_op ry1_globals]. rewrite ry1_QNG.
  eexists. reflexivity.
Qed.

(** * The loss *)

Lemma np_log_zero : np_log (RtoC 0) = NonFinite.
Proof.
  unfold np_log. destruct (Ceq_dec (RtoC 0) (RtoC 0)); [reflexivity|].
  congruence.
Qed.

Lemma fold_fadd_nonfinite l : fold_left fadd l NonFinite = NonFinite.
Proof. induction l as [|a l IH]; simpl; auto. Qed.

Lemma np_sum_nonfinite l : In NonFinite l -> np_sum l = NonFinite.
Proof.
  unfold np_sum. generalize (Finite (RtoC 0)).
  induction l as [|a l IH]; intros acc; simpl; [tauto|].
  intros [->|H].
  - destruct acc; simpl; apply fold_fadd_nonfinite.
  - apply IH; exact H.
Qed.

Lemma zip_with_fmul_zero p_target p_qbm :
  length p_target = length p_qbm ->
  In (RtoC 0) p_qbm ->
  In NonFinite (zip_with fmul p_target (map np_log p_qbm)).
Proof.
  revert p_target; induction p_qbm as [|z p IH]; intros [|x pt]; simpl;
    try tauto; try discriminate.
  intros Hlen [->|H].
  - left. rewrite np_log_zero. reflexivity.
  - right. apply IH; [lia|exact H].
Qed.

Lemma cross_entropy_returns p_target p_qbm :
  length p_target = length p_qbm ->
  cross_entropy p_target p_qbm
  = Ok (np_real (fneg (np_sum (zip_with fmul p_target (map np_log p_qbm))))).
Proof.
  intros Hlen. unfold cross_entropy, broadcast2.
  rewrite length_map, Hlen, Nat.eqb_refl. reflexivity.
Qed.

Lemma loss_run lstsq G hamiltonian_op ordered_parameters
    param_values_init time_steps p_target visible_diagonal H_coeffs
    param_values st p_qbm :
  get_gibbs_state_params lstsq G (hamiltonian_op H_coeffs) ordered_parameters
    param_values_init time_steps = Ok param_values ->
  assign_parameters (ansatz_op G) (dict_zip ordered_parameters param_values)
    = Ok st ->
  visible_diagonal st = Ok p_qbm ->
  length p_target = length p_qbm ->
  loss lstsq G hamiltonian_op ordered_parameters param_values_init
    time_steps p_target visible_diagonal H_coeffs
  = Ok (np_real (fneg (np_sum (zip_with fmul p_target (map np_log p_qbm))))).
Proof.
  intros Hp Hs Hv Hlen. unfold loss. rewrite Hp. cbn [rbind].
  rewrite Hs. cbn [rbind]. rewrite Hv. cbn [rbind].
  apply cross_entropy_returns. exact Hlen.
Qed.

(** C6, as the code has it.  When the propagation and the evaluation of
    the final state return, and the model vector has as many entries as
    the target, [loss] returns a value whatever the entries of the model
    vector are; when an entry is zero that value is non-finite. *)
Theorem loss_zero_probability lstsq G hamiltonian_op ordered_parameters
    param_values_init time_steps p_target visible_diagonal H_coeffs
    param_values st p_qbm :
  get_gibbs_state_params lstsq G (hamiltonian_op H_coeffs) ordered_parameters
    param_values_init time_steps = Ok param_values ->
  assign_parameters (ansatz_op G) (dict_zip ordered_parameters param_values)
    = Ok st ->
  visible_diagonal st = Ok p_qbm ->
  length p_target = length p_qbm ->
  (exists r,
      loss lstsq G hamiltonian_op ordered_parameters param_values_init
        time_steps p_target visible_diagonal H_coeffs = Ok r) /\
  (In (RtoC 0) p_qbm ->
   loss lstsq G hamiltonian_op ordered_parameters param_values_init
     time_steps p_target visible_diagonal H_coeffs = Ok NonFinite).
Proof.
  intros Hp Hs Hv Hlen.
  rewrite (loss_run lstsq G hamiltonian_op ordered_parameters
             param_values_init time_steps p_target visible_diagonal H_coeffs
             param_values st p_qbm Hp Hs Hv Hlen).
  split; [eexists; reflexivity|].
  intros Hz. rewrite (np_sum_nonfinite _ (zip_with_fmul_zero _ _ Hlen Hz)).
  reflexivity.
Qed.

Lemma ry1_rest :
  get_gibbs_state_params lstsq_1x1 (ry1_globals (1 / 2) 2)
    (ry1_hamiltonian [1]) [0%nat] [0] [0; 1 / 2] = Ok [0].
Proof.
  cbn [get_gibbs_state_params]. unfold ry1_hamiltonian. cbn [hd].
  rewrite ry1_euler_update by discriminate. cbn [rbind].
  rewrite sin_0.
  replace (0 - 1 / 2 / 2 * (2 * 1 * 0 / (1 + alpha))) with 0
    by (pose proof alpha_pos; field; lra).
  rewrite ry1_euler_update by discriminate. cbn [rbind].
  rewrite sin_0. do 2 f_equal. pose proof alpha_pos. field; lra.
Qed.

Lemma ry1_rest_diagonal :
  ry_diagonal (ry_state (0 + 0)) = Ok [RtoC 1; RtoC 0].
Proof.
  unfold ry_diagonal, ry_state. cbn [fst snd].
  replace ((0 + 0) / 2) with 0 by lra. rewrite sin_0, cos_0.
  do 3 f_equal; f_equal; lra.
Qed.

(** With the qubit at rest in [|0>] the model vector is [(1, 0)]; [loss]
    returns, and what it returns is not finite. *)
Lemma loss_zero_probability_counterexample :
  exists param_values st,
    get_gibbs_state_params lstsq_1x1 (ry1_globals (1 / 2) 2)
      (ry1_hamiltonian [1]) [0%nat] [0] [0; 1 / 2] = Ok param_values /\
    assign_parameters (ry_chain [0%nat]) (dict_zip [0%nat] param_values)
      = Ok st /\
    ry_diagonal st = Ok [RtoC 1; RtoC 0] /\
    loss lstsq_1x1 (ry1_globals (1 / 2) 2) ry1_hamiltonian [0%nat] [0]
      [0; 1 / 2] [1 / 2; 1 / 2] ry_diagonal [1] = Ok NonFinite.
Proof.
  exists [0], (ry_state (0 + 0)).
  split; [exact ry1_rest|]. split; [reflexivity|].
  split; [exact ry1_rest_diagonal|].
  rewrite (loss_run lstsq_1x1 (ry1_globals (1 / 2) 2) ry1_hamiltonian
             [0%nat] [0] [0; 1 / 2] [1 / 2; 1 / 2] ry_diagonal [1] [0]
             (ry_state (0 + 0)) [RtoC 1; RtoC 0]
             ry1_rest eq_refl ry1_rest_diagonal eq_refl).
  cbn [map zip_with]. rewrite np_log_zero.
  rewrite np_sum_nonfinite; [reflexivity|].
  simpl. auto.
Qed.

Lemma loss_zero_probability_witness :
  (exists r,
      loss lstsq_1x1 (ry1_globals (1 / 2) 2) ry1_hamiltonian [0%nat] [0]
        [0; 1 / 2] [1 / 2; 1 / 2] ry_diagonal [1] = Ok r) /\
  loss lstsq_1x1 (ry1_globals (1 / 2) 2) ry1_hamiltonian [0%nat] [0]
    [0; 1 / 2] [1 / 2; 1 / 2] ry_diagonal [1] = Ok NonFinite.
Proof.
  destruct (loss_zero_probability lstsq_1x1 (ry1_globals (1 / 2) 2)
              ry1_hamiltonian [0%nat] [0] [0; 1 / 2] [1 / 2; 1 / 2]
              ry_diagonal [1] [0] (ry_state (0 + 0)) [RtoC 1; RtoC 0]
              ry1_rest eq_refl ry1_rest_diagonal eq_refl) as [Hr Hz].
  split; [exact Hr|]. apply Hz. simpl. auto.
Defined.

(** * Further properties of the notebook's code *)

Lemma rmapM_raise {A B} (g : A -> result B) l e :
  rmapM g l = Raise e -> exists k a, nth_error l k = Some a /\ g a = Raise e.
Proof.
  induction l as [|x l IH]; simpl; [discriminate|].
  destruct (g x) as [b|e'] eqn:Hx; simpl.
  - destruct (rmapM g l) as [bs|e'']; simpl; [discriminate|].
    intros H. injection H as ->.
    destruct (IH eq_refl) as [k [a [Hk Ha]]].
    exists (S k), a. auto.
  - intros H. injection H as ->. exists 0%nat, x. auto.
Qed.

Lemma nth_key_lt d k pk :
  nth_error (dict_keys d) k = Some pk -> (k < length d)%nat.
Proof.
  intros H. assert (nth_error (dict_keys d) k <> None) by congruence.
  apply nth_error_Some in H0. unfold dict_keys in H0.
  rewrite length_map in H0. exact H0.
Qed.

(** X4. [gradient] raises nothing of its own: when it raises, the exception
    is the one that [op] raised at the input binding with one component
    moved by [+pi/2] or by [-pi/2]; in particular the subscripts
    [parameter_dict[param]] never raise [KeyError]. *)
Theorem gradient_raises_operator_error op d e :
  NoDup (dict_keys d) ->
  gradient op d = Raise e ->
  exists k,
    (k < length d)%nat /\
    (op (shift_component d k (PI / 2)) = Raise e \/
     op (shift_component d k (- (PI / 2))) = Raise e).
Proof.
  intros Hnd H. rewrite (gradient_run op d Hnd) in H.
  destruct (rmapM (grad_entry op d) (dict_keys d)) as [g|e'] eqn:Hm;
    simpl in H; [discriminate|].
  injection H as ->.
  destruct (rmapM_raise _ _ _ Hm) as [k [pk [Hk Hp]]].
  exists k. split; [exact (nth_key_lt d k pk Hk)|].
  unfold grad_entry in Hp.
  rewrite !(shifted_component d k pk _ Hnd Hk) in Hp.
  destruct (op (shift_component d k (PI / 2))) as [ps|e1]; simpl in Hp.
  - destruct (op (shift_component d k (- (PI / 2)))) as [ms|e2];
      simpl in Hp; [discriminate|]. right. exact Hp.
  - left. exact Hp.
Qed.

Lemma gradient_raises_operator_error_witness :
  exists k,
    (k < 1)%nat /\
    (ry_chain_Z [0%nat; 1%nat] 1 (shift_component [(0%nat, 0)] k (PI / 2))
       = Raise SimulatorError \/
     ry_chain_Z [0%nat; 1%nat] 1 (shift_component [(0%nat, 0)] k (- (PI / 2)))
       = Raise SimulatorError).
Proof.
  apply (gradient_raises_operator_error (ry_chain_Z [0%nat; 1%nat] 1)
           [(0%nat, 0)] SimulatorError).
  - nodup_keys.
  - reflexivity.
Defined.

Lemma shift2_keys d i a j b : dict_keys (shift2 d i a j b) = dict_keys d.
Proof. unfold shift2. rewrite !dict_keys_shifted. reflexivity. Qed.

(** X5. [QFI] raises nothing of its own: when it raises, the exception is
    the one raised by binding the measurement state at the input dictionary,
    or by an overlap evaluated at a binding with the same keys. *)
Theorem QFI_raises_collaborator_error state_op d e :
  NoDup (dict_keys d) ->
  QFI state_op d = Raise e ->
  assign_parameters state_op d = Raise e \/
  exists meas d',
    assign_parameters state_op d = Ok meas /\
    dict_keys d' = dict_keys d /\
    overlap_at state_op meas d' = Raise e.
Proof.
  intros Hnd H. rewrite (QFI_run state_op d Hnd) in H.
  destruct (assign_parameters state_op d) as [meas|e0]; simpl in H;
    [|left; injection H as ->; reflexivity].
  right. exists meas.
  destruct (rmapM _ (dict_keys d)) as [q|e1] eqn:Hm; simpl in H;
    [discriminate|].
  injection H as ->.
  destruct (rmapM_raise _ _ _ Hm) as [k [pk [_ Hrow]]].
  destruct (rmapM_raise _ _ _ Hrow) as [l [pl [_ Hq]]].
  unfold qfi_stencil in Hq.
  destruct (overlap_at state_op meas (shift2 d pk (PI / 2) pl (PI / 2)))
    as [v1|e1] eqn:E1; simpl in Hq;
    [|injection Hq as ->; exists (shift2 d pk (PI / 2) pl (PI / 2));
      repeat split; [apply shift2_keys|exact E1]].
  destruct (overlap_at state_op meas (shift2 d pk (PI / 2) pl (- (PI / 2))))
    as [v2|e2] eqn:E2; simpl in Hq;
    [|injection Hq as ->; exists (shift2 d pk (PI / 2) pl (- (PI / 2)));
      repeat split; [apply shift2_keys|exact E2]].
  destruct (overlap_at state_op meas
              (shift2 d pk (- (PI / 2)) pl (- (PI / 2))))
    as [v3|e3] eqn:E3; simpl in Hq;
    [|injection Hq as ->; exists (shift2 d pk (- (PI / 2)) pl (- (PI / 2)));
      repeat split; [apply shift2_keys|exact E3]].
  destruct (overlap_at state_op meas (shift2 d pk (- (PI / 2)) pl (PI / 2)))
    as [v4|e4] eqn:E4; simpl in Hq; [discriminate|].
  injection Hq as ->. exists (shift2 d pk (- (PI / 2)) pl (PI / 2)).
  repeat split; [apply shift2_keys|exact E4].
Qed.

Lemma QFI_raises_collaborator_error_witness :
  assign_parameters two_ry [(0%nat, 0)] = Raise SimulatorError \/
  exists meas d',
    assign_parameters two_ry [(0%nat, 0)] = Ok meas /\
    dict_keys d' = dict_keys [(0%nat, 0)] /\
    overlap_at two_ry meas d' = Raise SimulatorError.
Proof.
  apply (QFI_raises_collaborator_error two_ry [(0%nat, 0)] SimulatorError).
  - nodup_keys.
  - reflexivity.
Defined.

Lemma QNG_inv lstsq op state_op d qng d' :
  QNG lstsq op state_op d = Ok (qng, d') ->
  exists grad d1 qfi,
    gradient op d = Ok (grad, d1) /\
    QFI state_op d1 = Ok (qfi, d') /\
    lstsq (regularized qfi) grad = Ok qng.
Proof.
  unfold QNG, bind, call. intros H.
  destruct (gradient op d) as [[grad d1]|e] eqn:Hg; [|discriminate].
  destruct (QFI state_op d1) as [[qfi d2]|e] eqn:Hq; [|discriminate].
  destruct (lstsq (regularized qfi) grad) as [x|e] eqn:Hl; [|discriminate].
  injection H as <- <-. exists grad, d1, qfi. repeat split; assumption.
Qed.

(** X1. Whenever [QNG] returns, the dictionary is as it was passed in, and
    the result is what the solver returns for the system
    [qfi + alpha * np.diag(qfi)] and the right-hand side [grad], where [grad]
    and [qfi] are the results of [gradient] and of [QFI] at that same,
    unshifted dictionary. *)
Theorem QNG_returns lstsq op state_op d qng d' :
  NoDup (dict_keys d) ->
  QNG lstsq op state_op d = Ok (qng, d') ->
  d' = d /\
  exists grad qfi,
    gradient op d = Ok (grad, d) /\
    QFI state_op d = Ok (qfi, d) /\
    lstsq (regularized qfi) grad = Ok qng.
Proof.
  intros Hnd H.
  destruct (QNG_inv lstsq op state_op d qng d' H)
    as [grad [d1 [qfi [Hg [Hq Hl]]]]].
  destruct (gradient_returns op d grad d1 Hnd Hg) as [-> _].
  destruct (QFI_returns state_op d qfi d' Hnd Hq) as [-> _].
  split; [reflexivity|]. exists grad, qfi. auto.
Qed.

Lemma QNG_returns_witness :
  exists qng d',
    QNG lstsq_1x1 (ry_chain_Z [0%nat] 1) (ry_chain [0%nat]) [(0%nat, 0)]
      = Ok (qng, d') /\
    d' = [(0%nat, 0)] /\
    exists grad qfi,
      gradient (ry_chain_Z [0%nat] 1) [(0%nat, 0)]
        = Ok (grad, [(0%nat, 0)]) /\
      QFI (ry_chain [0%nat]) [(0%nat, 0)] = Ok (qfi, [(0%nat, 0)]) /\
      lstsq_1x1 (regularized qfi) grad = Ok qng.
Proof.
  eexists. eexists. split; [apply ry1_QNG|].
  apply (QNG_returns lstsq_1x1 (ry_chain_Z [0%nat] 1) (ry_chain [0%nat])
           [(0%nat, 0)]).
  - nodup_keys.
  - apply ry1_QNG.
Defined.

Lemma grad_entry_linear a b op1 op2 d p x y :
  grad_entry op1 d p = Ok x -> grad_entry op2 d p = Ok y ->
  grad_entry (op_add (op_scale a op1) (op_scale b op2)) d p
  = Ok (Cadd (Cscale a x) (Cscale b y)).
Proof.
  unfold grad_entry, op_add, op_scale. intros H1 H2.
  destruct (op1 (shifted d p (PI / 2))) as [p1|]; simpl in *; [|discriminate].
  destruct (op1 (shifted d p (- (PI / 2)))) as [m1|]; simpl in *;
    [|discriminate].
  destruct (op2 (shifted d p (PI / 2))) as [p2|]; simpl in *; [|discriminate].
  destruct (op2 (shifted d p (- (PI / 2)))) as [m2|]; simpl in *;
    [|discriminate].
  injection H1 as <-. injection H2 as <-. f_equal.
  apply C_eq; simpl; lra.
Qed.

Lemma rmapM_grad_linear a b op1 op2 d l g1 g2 :
  rmapM (grad_entry op1 d) l = Ok g1 ->
  rmapM (grad_entry op2 d) l = Ok g2 ->
  rmapM (grad_entry (op_add (op_scale a op1) (op_scale b op2)) d) l
  = Ok (zip_with (fun x y => Cadd (Cscale a x) (Cscale b y)) g1 g2).
Proof.
  revert g1 g2; induction l as [|p l IH]; simpl; intros g1 g2 H1 H2.
  - injection H1 as <-. injection H2 as <-. reflexivity.
  - destruct (grad_entry op1 d p) as [x|] eqn:E1; simpl in H1; [|discriminate].
    destruct (grad_entry op2 d p) as [y|] eqn:E2; simpl in H2; [|discriminate].
    destruct (rmapM (grad_entry op1 d) l) as [t1|]; simpl in H1;
      [|discriminate].
    destruct (rmapM (grad_entry op2 d) l) as [t2|]; simpl in H2;
      [|discriminate].
    injection H1 as <-. injection H2 as <-.
    rewrite (grad_entry_linear a b op1 op2 d p x y E1 E2). simpl.
    rewrite (IH t1 t2 eq_refl eq_refl). reflexivity.
Qed.

(** X6. [gradient] is linear in the operator: for the operator whose
    values are [a * op1 + b * op2], as for a weighted sum of Pauli terms,
    it returns the same combination of the two gradients, component by
    component. *)
Theorem gradient_linear a b op1 op2 d g1 g2 d1 d2 :
  NoDup (dict_keys d) ->
  gradient op1 d = Ok (g1, d1) ->
  gradient op2 d = Ok (g2, d2) ->
  gradient (op_add (op_scale a op1) (op_scale b op2)) d
  = Ok (zip_with (fun x y => Cadd (Cscale a x) (Cscale b y)) g1 g2, d).
Proof.
  intros Hnd H1 H2.
  rewrite (gradient_run op1 d Hnd) in H1.
  rewrite (gradient_run op2 d Hnd) in H2.
  rewrite (gradient_run _ d Hnd).
  destruct (rmapM (grad_entry op1 d) (dict_keys d)) as [t1|] eqn:E1;
    simpl in H1; [|discriminate].
  destruct (rmapM (grad_entry op2 d) (dict_keys d)) as [t2|] eqn:E2;
    simpl in H2; [|discriminate].
  injection H1 as <- _. injection H2 as <- _.
  rewrite (rmapM_grad_linear a b op1 op2 d _ t1 t2 E1 E2). reflexivity.
Qed.

Lemma gradient_linear_witness :
  exists g1 g2,
    gradient (ry_chain_Z [0%nat; 1%nat] 1) origin2 = Ok (g1, origin2) /\
    gradient (ry_chain_Z [0%nat] 1) origin2 = Ok (g2, origin2) /\
    gradient (op_add (op_scale 3 (ry_chain_Z [0%nat; 1%nat] 1))
                     (op_scale 5 (ry_chain_Z [0%nat] 1))) origin2
    = Ok (zip_with (fun x y => Cadd (Cscale 3 x) (Cscale 5 y)) g1 g2, origin2).
Proof.
  assert (Hnd : NoDup (dict_keys origin2)) by nodup_keys.
  destruct (gradient_total (ry_chain_Z [0%nat; 1%nat] 1) origin2 Hnd)
    as [g1 H1].
  { intros d' Hk. destruct d' as [|[k0 x] [|[k1 y] [|? ?]]]; try discriminate.
    injection Hk as -> ->. eexists. reflexivity. }
  destruct (gradient_total (ry_chain_Z [0%nat] 1) origin2 Hnd) as [g2 H2].
  { intros d' Hk. destruct d' as [|[k0 x] [|[k1 y] [|? ?]]]; try discriminate.
    injection Hk as -> ->. eexists. reflexivity. }
  exists g1, g2. split; [exact H1|]. split; [exact H2|].
  exact (gradient_linear 3 5 _ _ origin2 g1 g2 origin2 origin2 Hnd H1 H2).
Defined.

(** X7. When [op] takes the same value at the binding with component [k]
    moved by [+pi/2] and by [-pi/2], as it does when it does not depend on
    that parameter, component [k] of the gradient is zero. *)
Theorem gradient_zero_component op d g d' k :
  NoDup (dict_keys d) ->
  gradient op d = Ok (g, d') ->
  (k < length d)%nat ->
  op (shift_component d k (PI / 2)) = op (shift_component d k (- (PI / 2))) ->
  nth_error g k = Some (RtoC 0).
Proof.
  intros Hnd H Hk Hsame.
  destruct (gradient_returns op d g d' Hnd H) as [_ [_ Hent]].
  destruct (nth_key d k Hk) as [pk Hpk].
  destruct (Hent k pk Hpk) as [gk [Hgk ->]]. f_equal.
  unfold grad_entry in Hgk.
  rewrite !(shifted_component d k pk _ Hnd Hpk), <- Hsame in Hgk.
  destruct (op (shift_component d k (PI / 2))) as [v|]; simpl in Hgk;
    [|discriminate].
  injection Hgk as <-. apply C_eq; simpl; lra.
Qed.

Lemma gradient_zero_component_witness :
  exists g d',
    gradient (ry_chain_Z [0%nat] 1) origin2 = Ok (g, d') /\
    nth_error g 1 = Some (RtoC 0).
Proof.
  eexists. eexists. split; [reflexivity|].
  eapply (gradient_zero_component (ry_chain_Z [0%nat] 1) origin2).
  - nodup_keys.
  - reflexivity.
  - simpl. lia.
  - reflexivity.
Defined.

Lemma ignores_shifted state_op d k pk :
  NoDup (dict_keys d) -> nth_error (dict_keys d) k = Some pk ->
  ignores_component state_op d k ->
  forall meas d' delta,
    dict_keys d' = dict_keys d ->
    overlap_at state_op meas (shifted d' pk delta)
    = overlap_at state_op meas d'.
Proof.
  intros Hnd Hk Hign meas d' delta Hkeys.
  rewrite (shifted_component d' k pk delta) by (rewrite Hkeys; assumption).
  apply Hign. exact Hkeys.
Qed.

(** X8. For a parameter that the state does not depend on, the row and
    the column of the metric tensor are zero, the diagonal entry included:
    the system handed to the solver is then singular up to the
    regularizer. *)
Theorem metric_tensor_ignored_parameter state_op d qfi d' k :
  NoDup (dict_keys d) ->
  QFI state_op d = Ok (qfi, d') ->
  (k < length d)%nat ->
  ignores_component state_op d k ->
  forall l, (l < length d)%nat ->
            entry qfi k l = Some 0 /\ entry qfi l k = Some 0.
Proof.
  intros Hnd H Hk Hign l Hl.
  destruct (QFI_returns state_op d qfi d' Hnd H)
    as [_ [meas [_ [_ [_ Hent]]]]].
  destruct (nth_key d k Hk) as [pk Hpk].
  destruct (nth_key d l Hl) as [pl Hpl].
  pose proof (ignores_shifted state_op d k pk Hnd Hpk Hign meas) as Hs.
  split.
  - destruct (Hent k l pk pl Hpk Hpl) as [q [Hq ->]]. f_equal.
    unfold qfi_stencil, shift2 in Hq.
    rewrite !(shifted_swap d pk pl) in Hq.
    rewrite !Hs in Hq by apply dict_keys_shifted.
    destruct (overlap_at state_op meas (shifted d pl (PI / 2))) as [u|];
      simpl in Hq; [|discriminate].
    destruct (overlap_at state_op meas (shifted d pl (- (PI / 2)))) as [v|];
      simpl in Hq; [|discriminate].
    injection Hq as <-. lra.
  - destruct (Hent l k pl pk Hpl Hpk) as [q [Hq ->]]. f_equal.
    unfold qfi_stencil, shift2 in Hq.
    rewrite !Hs in Hq by apply dict_keys_shifted.
    destruct (overlap_at state_op meas (shifted d pl (PI / 2))) as [u|];
      simpl in Hq; [|discriminate].
    destruct (overlap_at state_op meas (shifted d pl (- (PI / 2)))) as [v|];
      simpl in Hq; [|discriminate].
    injection Hq as <-. lra.
Qed.

Lemma two_ry_ignores_third : ignores_component two_ry origin3 2.
Proof.
  intros meas d' delta Hk.
  destruct d' as [|[k0 x] [|[k1 y] [|[k2 z] [|? ?]]]]; try discriminate.
  injection Hk as -> -> ->. reflexivity.
Qed.

Lemma metric_tensor_ignored_parameter_witness :
  exists qfi d',
    QFI two_ry origin3 = Ok (qfi, d') /\
    forall l, (l < 3)%nat ->
              entry qfi 2 l = Some 0 /\ entry qfi l 2 = Some 0.
Proof.
  eexists. eexists. split; [reflexivity|].
  eapply (metric_tensor_ignored_parameter two_ry origin3).
  - nodup_keys.
  - reflexivity.
  - simpl. lia.
  - exact two_ry_ignores_third.
Defined.

(** X9. On the diagonal the stencil of [QFI] is a second difference with
    step [pi]: entry [(k, k)] is
    [Re f(k:+pi)/4 + Re f(k:-pi)/4 - Re f(unshifted)/2]. *)
Theorem metric_tensor_diagonal_stencil state_op d qfi d' k :
  NoDup (dict_keys d) ->
  QFI state_op d = Ok (qfi, d') ->
  (k < length d)%nat ->
  exists meas f_plus f_minus f_zero,
    assign_parameters state_op d = Ok meas /\
    overlap_at state_op meas (shift_component d k PI) = Ok f_plus /\
    overlap_at state_op meas (shift_component d k (- PI)) = Ok f_minus /\
    overlap_at state_op meas d = Ok f_zero /\
    entry qfi k k
    = Some (1 / 4 * Re f_plus + 1 / 4 * Re f_minus - 1 / 2 * Re f_zero).
Proof.
  intros Hnd H Hk.
  destruct (QFI_returns state_op d qfi d' Hnd H)
    as [_ [meas [Hmeas [_ [_ Hent]]]]].
  destruct (nth_key d k Hk) as [pk Hpk].
  destruct (Hent k k pk pk Hpk Hpk) as [q [Hq ->]].
  unfold qfi_stencil, shift2 in Hq.
  rewrite !shifted_same in Hq.
  replace (PI / 2 + PI / 2) with PI in Hq by lra.
  replace (PI / 2 + - (PI / 2)) with 0 in Hq by lra.
  replace (- (PI / 2) + - (PI / 2)) with (- PI) in Hq by lra.
  replace (- (PI / 2) + PI / 2) with 0 in Hq by lra.
  rewrite shifted_zero in Hq.
  rewrite !(shifted_component d k pk _ Hnd Hpk) in Hq.
  destruct (overlap_at state_op meas (shift_component d k PI)) as [fp|]
    eqn:Ep; simpl in Hq; [|discriminate].
  destruct (overlap_at state_op meas d) as [f0|] eqn:E0; simpl in Hq;
    [|discriminate].
  destruct (overlap_at state_op meas (shift_component d k (- PI))) as [fm|]
    eqn:Em; simpl in Hq; [|discriminate].
  exists meas, fp, fm, f0. repeat split; try assumption.
  injection Hq as <-. f_equal. lra.
Qed.

Lemma metric_tensor_diagonal_stencil_witness :
  exists qfi d' meas f_plus f_minus f_zero,
    QFI two_ry origin2 = Ok (qfi, d') /\
    assign_parameters two_ry origin2 = Ok meas /\
    overlap_at two_ry meas (shift_component origin2 1 PI) = Ok f_plus /\
    overlap_at two_ry meas (shift_component origin2 1 (- PI)) = Ok f_minus /\
    overlap_at two_ry meas origin2 = Ok f_zero /\
    entry qfi 1 1
    = Some (1 / 4 * Re f_plus + 1 / 4 * Re f_minus - 1 / 2 * Re f_zero).
Proof.
  eexists. eexists.
  destruct (metric_tensor_diagonal_stencil two_ry origin2 _ _ 1
              ltac:(nodup_keys) eq_refl ltac:(simpl; lia))
    as [meas [fp [fm [f0 H]]]].
  exists meas, fp, fm, f0. split; [reflexivity|]. exact H.
Defined.

(** X10. When every overlap with the measurement state has its real part
    in [[-1, 1]], as overlaps of unit vectors have, every entry of the
    metric tensor lies in [[-1, 1]]. *)
Theorem metric_tensor_bounded state_op d qfi d' :
  NoDup (dict_keys d) ->
  QFI state_op d = Ok (qfi, d') ->
  (forall meas d1 v,
      assign_parameters state_op d = Ok meas ->
      overlap_at state_op meas d1 = Ok v -> -1 <= Re v <= 1) ->
  forall k l q, entry qfi k l = Some q -> -1 <= q <= 1.
Proof.
  intros Hnd H Hb k l q Hq.
  destruct (QFI_returns state_op d qfi d' Hnd H)
    as [_ [meas [Hmeas [Hlen [Hrows Hent]]]]].
  assert (Hk : (k < length d)%nat).
  { rewrite <- Hlen. apply nth_error_Some. unfold entry in Hq.
    destruct (nth_error qfi k); congruence. }
  assert (Hl : (l < length d)%nat).
  { unfold entry in Hq. destruct (nth_error qfi k) as [row|] eqn:Hr;
      [|discriminate].
    rewrite <- (Hrows k row Hr). apply nth_error_Some. congruence. }
  destruct (nth_key d k Hk) as [pk Hpk].
  destruct (nth_key d l Hl) as [pl Hpl].
  destruct (Hent k l pk pl Hpk Hpl) as [q' [Hq' Hql]].
  rewrite Hql in Hq. injection Hq as ->.
  unfold qfi_stencil in Hq'.
  destruct (overlap_at state_op meas (shift2 d pk (PI / 2) pl (PI / 2)))
    as [v1|] eqn:E1; simpl in Hq'; [|discriminate].
  destruct (overlap_at state_op meas (shift2 d pk (PI / 2) pl (- (PI / 2))))
    as [v2|] eqn:E2; simpl in Hq'; [|discriminate].
  destruct (overlap_at state_op meas
              (shift2 d pk (- (PI / 2)) pl (- (PI / 2))))
    as [v3|] eqn:E3; simpl in Hq'; [|discriminate].
  destruct (overlap_at state_op meas (shift2 d pk (- (PI / 2)) pl (PI / 2)))
    as [v4|] eqn:E4; simpl in Hq'; [|discriminate].
  injection Hq' as <-.
  pose proof (Hb meas _ v1 Hmeas E1). pose proof (Hb meas _ v2 Hmeas E2).
  pose proof (Hb meas _ v3 Hmeas E3). pose proof (Hb meas _ v4 Hmeas E4).
  lra.
Qed.

Lemma two_ry_overlap_bounded meas d1 v :
  assign_parameters two_ry origin2 = Ok meas ->
  overlap_at two_ry meas d1 = Ok v -> -1 <= Re v <= 1.
Proof.
  intros Hm Hv. simpl in Hm. injection Hm as <-.
  unfold overlap_at in Hv. simpl in Hv.
  destruct (total_angle [0%nat; 1%nat] d1) as [s|]; simpl in Hv;
    [|discriminate].
  injection Hv as <-. simpl. rewrite inner_ry. apply COS_bound.
Qed.

Lemma metric_tensor_bounded_witness :
  exists qfi d',
    QFI two_ry origin2 = Ok (qfi, d') /\
    forall k l q, entry qfi k l = Some q -> -1 <= q <= 1.
Proof.
  eexists. eexists. split; [reflexivity|].
  eapply (metric_tensor_bounded two_ry origin2).
  - nodup_keys.
  - reflexivity.
  - exact two_ry_overlap_bounded.
Defined.

Lemma length_zip_with {A B D} (f : A -> B -> D) a b :
  length a = length b -> length (zip_with f a b) = length a.
Proof.
  revert b; induction a as [|x a IH]; intros [|y b]; simpl; try discriminate;
    auto.
Qed.

Lemma length_dict_zip keys theta :
  NoDup keys -> length (dict_zip keys theta)
                = Nat.min (length keys) (length theta).
Proof.
  intros Hnd. unfold dict_zip. rewrite dict_of_nodup.
  - apply length_combine.
  - rewrite map_fst_combine. apply NoDup_firstn_keys. exact Hnd.
Qed.

Lemma dict_keys_dict_zip keys theta :
  NoDup keys -> NoDup (dict_keys (dict_zip keys theta)).
Proof.
  intros Hnd. unfold dict_zip. rewrite dict_of_nodup;
    unfold dict_keys; rewrite map_fst_combine;
    apply NoDup_firstn_keys; exact Hnd.
Qed.

Lemma length_regularized m : length (regularized m) = length m.
Proof. unfold regularized, mat_add_vec. apply length_map. Qed.

(** The length of the natural gradient that [QNG] returns. *)
Lemma QNG_length lstsq op state_op d qng d' :
  lstsq_shape lstsq -> NoDup (dict_keys d) ->
  QNG lstsq op state_op d = Ok (qng, d') -> length qng = length d.
Proof.
  intros Hshape Hnd H.
  destruct (QNG_inv lstsq op state_op d qng d' H)
    as [grad [d1 [qfi [Hg [Hq Hl]]]]].
  destruct (gradient_returns op d grad d1 Hnd Hg) as [-> _].
  rewrite (Hshape _ _ _ Hl), length_regularized.
  destruct (QFI_returns state_op d qfi d' Hnd Hq) as [_ [_ [_ [Hlen _]]]].
  exact Hlen.
Qed.

Lemma lstsq_1x1_shape : lstsq_shape lstsq_1x1.
Proof.
  intros a b x H. unfold lstsq_1x1 in H.
  destruct a as [|[|a00 [|? ?]] [|? ?]]; try discriminate.
  destruct b as [|b0 [|? ?]]; try discriminate.
  injection H as <-. reflexivity.
Qed.

(** X11. With a solver that returns one unknown per row of the system,
    distinct parameters and as many initial values as parameters, the
    vector returned by [get_gibbs_state_params] has as many entries as
    there are parameters, whatever the grid. *)
Theorem propagation_preserves_length lstsq G op params theta grid theta_f :
  lstsq_shape lstsq ->
  NoDup params ->
  length theta = length params ->
  get_gibbs_state_params lstsq G op params theta grid = Ok theta_f ->
  length theta_f = length params.
Proof.
  intros Hshape Hnd. revert theta.
  induction grid as [|s grid IH]; intros theta Hlen H; simpl in H.
  - injection H as <-. exact Hlen.
  - destruct (euler_update lstsq G op params theta) as [theta1|] eqn:Hu;
      simpl in H; [|discriminate].
    apply (IH theta1); [|exact H].
    destruct (euler_update_inv lstsq G op params theta theta1 Hu)
      as [qng [d' [Hq [_ Hs]]]].
    pose proof (QNG_length lstsq op (ansatz_op G) _ qng d' Hshape
                  (dict_keys_dict_zip params theta Hnd) Hq) as Hl.
    rewrite (length_dict_zip params theta Hnd), Hlen, Nat.min_id in Hl.
    unfold np_subtract, broadcast2 in Hs.
    rewrite !length_map, Hl, Hlen, Nat.eqb_refl in Hs.
    injection Hs as <-. rewrite length_zip_with; [exact Hlen|].
    rewrite !length_map. congruence.
Qed.

Lemma propagation_preserves_length_witness :
  exists theta_f,
    get_gibbs_state_params lstsq_1x1 (ry1_globals (1 / 2) 2)
      (ry1_hamiltonian [1]) [0%nat] [0] [0; 1 / 2] = Ok theta_f /\
    length theta_f = 1%nat.
Proof.
  exists [0]. split; [exact ry1_rest|].
  apply (propagation_preserves_length lstsq_1x1 (ry1_globals (1 / 2) 2)
           (ry1_hamiltonian [1]) [0%nat] [0] [0; 1 / 2] [0]).
  - exact lstsq_1x1_shape.
  - repeat constructor. simpl. tauto.
  - reflexivity.
  - exact ry1_rest.
Defined.

(** X12. With at least two parameters and more values than parameters an
    update never returns: the natural gradient is computed on the
    truncated binding, and when that and the division succeed
    [np.subtract] raises [ValueError] for the mismatched lengths. *)
Theorem update_rejects_long_vector lstsq G op params theta :
  lstsq_shape lstsq ->
  NoDup params ->
  (2 <= length params)%nat ->
  (length params < length theta)%nat ->
  exists e,
    euler_update lstsq G op params theta = Raise e /\
    (forall r, QNG lstsq op (ansatz_op G) (dict_zip params theta) = Ok r ->
               num_time_steps G <> 0%Z -> e = ValueError).
Proof.
  intros Hshape Hnd H2 Hlong. unfold euler_update.
  destruct (QNG lstsq op (ansatz_op G) (dict_zip params theta))
    as [[qng d']|e] eqn:Hq; simpl.
  - unfold step_size.
    destruct (Z.eqb_spec (num_time_steps G) 0) as [Hz|Hz]; simpl.
    + exists ZeroDivisionError. split; [reflexivity|].
      intros _ _ Hn. contradiction.
    + pose proof (QNG_length lstsq op (ansatz_op G) _ qng d' Hshape
                    (dict_keys_dict_zip params theta Hnd) Hq) as Hl.
      rewrite (length_dict_zip params theta Hnd) in Hl.
      rewrite Nat.min_l in Hl by lia.
      exists ValueError. split; [|reflexivity].
      unfold np_subtract, broadcast2. rewrite !length_map, Hl.
      destruct (Nat.eqb_spec (length theta) (length params)) as [E|_];
        [lia|].
      destruct theta as [|x [|y theta]]; simpl in Hlong; try lia.
      destruct qng as [|u [|v qng]]; simpl in Hl; try lia.
      reflexivity.
  - exists e. split; [reflexivity|]. intros r Hr. discriminate.
Qed.

Lemma lstsq_2x2_shape : lstsq_shape lstsq_2x2.
Proof.
  intros a b x H. unfold lstsq_2x2 in H.
  destruct a as [|[|a00 [|a01 [|? ?]]] [|[|a10 [|a11 [|? ?]]] [|? ?]]];
    try discriminate.
  destruct b as [|b0 [|b1 [|? ?]]]; try discriminate.
  injection H as <-.
  destruct (Req_dec_T (a00 * a11 - a01 * a10) 0);
    [destruct (Req_dec_T (a00 * a00 + a01 * a01 + a10 * a10 + a11 * a11) 0)|];
    reflexivity.
Qed.

Lemma update_rejects_long_vector_witness :
  (exists r,
      QNG lstsq_2x2 (ry_chain_Z [0%nat; 1%nat] 1) two_ry
        (dict_zip [0%nat; 1%nat] [0; 0; 0]) = Ok r) /\
  euler_update lstsq_2x2 (ry2_globals (1 / 2) 2)
    (ry_chain_Z [0%nat; 1%nat] 1) [0%nat; 1%nat] [0; 0; 0]
  = Raise ValueError.
Proof.
  assert (Hq : exists r,
             QNG lstsq_2x2 (ry_chain_Z [0%nat; 1%nat] 1) two_ry
               (dict_zip [0%nat; 1%nat] [0; 0; 0]) = Ok r).
  { eexists. vm_compute. reflexivity. }
  split; [exact Hq|]. destruct Hq as [r Hq].
  destruct (update_rejects_long_vector lstsq_2x2 (ry2_globals (1 / 2) 2)
              (ry_chain_Z [0%nat; 1%nat] 1) [0%nat; 1%nat] [0; 0; 0])
    as [e [He Hc]].
  - exact lstsq_2x2_shape.
  - repeat (constructor; [simpl; intuition discriminate|]); constructor.
  - simpl. lia.
  - simpl. lia.
  - rewrite He. f_equal. apply (Hc r Hq). discriminate.
Defined.

(** X13. With a single parameter and two or more values an update that
    returns has broadcast the one-entry natural gradient that [QNG]
    returned for the truncated binding: every value is moved by
    [t/num_time_steps * Re(x)], with [x] that one entry. *)
Theorem single_parameter_broadcast lstsq G op p theta theta1 :
  lstsq_shape lstsq ->
  (2 <= length theta)%nat ->
  euler_update lstsq G op [p] theta = Ok theta1 ->
  exists x d',
    QNG lstsq op (ansatz_op G) (dict_zip [p] theta) = Ok ([x], d') /\
    num_time_steps G <> 0%Z /\
    theta1
    = map (fun v => v - t G / IZR (num_time_steps G) * Re x) theta.
Proof.
  intros Hshape Hlen H.
  assert (Hnd : NoDup [p]) by (repeat constructor; simpl; tauto).
  destruct (euler_update_inv lstsq G op [p] theta theta1 H)
    as [qng [d' [Hq [Hn Hs]]]].
  pose proof (QNG_length lstsq op (ansatz_op G) _ qng d' Hshape
                (dict_keys_dict_zip [p] theta Hnd) Hq) as Hl.
  rewrite (length_dict_zip [p] theta Hnd) in Hl.
  simpl length in Hl. rewrite Nat.min_l in Hl by lia.
  destruct qng as [|u [|? ?]]; try discriminate.
  exists u, d'. split; [exact Hq|]. split; [exact Hn|].
  unfold np_subtract, broadcast2 in Hs. simpl map in Hs.
  simpl length in Hs.
  destruct theta as [|a [|b theta]]; simpl in Hlen; try lia.
  simpl in Hs. injection Hs as <-. reflexivity.
Qed.

Lemma single_parameter_broadcast_witness :
  exists theta1 x d',
    euler_update lstsq_1x1 (ry1_globals (1 / 2) 2) (ry_chain_Z [0%nat] 1)
      [0%nat] [0; 7] = Ok theta1 /\
    QNG lstsq_1x1 (ry_chain_Z [0%nat] 1) (ry_chain [0%nat])
      (dict_zip [0%nat] [0; 7]) = Ok ([x], d') /\
    theta1 = map (fun v => v - 1 / 2 / 2 * Re x) [0; 7].
Proof.
  assert (Hrun : exists theta1,
             euler_update lstsq_1x1 (ry1_globals (1 / 2) 2)
               (ry_chain_Z [0%nat] 1) [0%nat] [0; 7] = Ok theta1).
  { unfold euler_update.
    change (dict_zip [0%nat] [0; 7]) with [(0%nat, 0)].
    cbn [ansatz_op ry1_globals]. rewrite ry1_QNG.
    eexists. reflexivity. }
  destruct Hrun as [theta1 Hrun].
  destruct (single_parameter_broadcast lstsq_1x1 (ry1_globals (1 / 2) 2)
              (ry_chain_Z [0%nat] 1) 0%nat [0; 7] theta1 lstsq_1x1_shape
              ltac:(simpl; lia) Hrun) as [x [d' [Hq [_ Ht]]]].
  exists theta1, x, d'. split; [exact Hrun|]. split; [exact Hq|]. exact Ht.
Defined.

(** X14. With [num_time_steps = 0] and a non-empty grid
    [get_gibbs_state_params] raises; the exception is [ZeroDivisionError]
    when the first natural gradient was computed, that is only after the
    whole gradient and metric tensor were evaluated. *)
Theorem zero_step_count lstsq G op params theta s rest :
  num_time_steps G = 0%Z ->
  exists e,
    get_gibbs_state_params lstsq G op params theta (s :: rest) = Raise e /\
    (forall r, QNG lstsq op (ansatz_op G) (dict_zip params theta) = Ok r ->
               e = ZeroDivisionError).
Proof.
  intros Hz. simpl. unfold euler_update, step_size. rewrite Hz. simpl.
  destruct (QNG lstsq op (ansatz_op G) (dict_zip params theta)) as [r|e];
    simpl.
  - exists ZeroDivisionError. auto.
  - exists e. split; [reflexivity|]. intros r Hr. discriminate.
Qed.

Lemma zero_step_count_witness :
  get_gibbs_state_params lstsq_1x1 (ry1_globals (1 / 2) 0)
    (ry_chain_Z [0%nat] 1) [0%nat] [0] [0; 1 / 2] = Raise ZeroDivisionError.
Proof.
  destruct (zero_step_count lstsq_1x1 (ry1_globals (1 / 2) 0)
              (ry_chain_Z [0%nat] 1) [0%nat] [0] 0 [1 / 2] eq_refl)
    as [e [He Hq]].
  rewrite He. f_equal. eapply Hq.
  change (dict_zip [0%nat] [0]) with [(0%nat, 0)].
  cbn [ansatz_op ry1_globals]. apply ry1_QNG.
Defined.

Lemma nth_map_seq (f : nat -> R) n i :
  (i < n)%nat -> nth i (map f (seq 0 n)) 0 = f i.
Proof.
  intros Hi.
  rewrite (nth_indep _ 0 (f 0%nat)) by (rewrite length_map, length_seq; lia).
  rewrite map_nth, seq_nth by lia. reflexivity.
Qed.

Lemma np_linspace_length a b n : length (np_linspace a b n) = n.
Proof.
  destruct n as [|[|n]]; simpl; try reflexivity.
  rewrite length_map, length_seq. reflexivity.
Qed.

Lemma np_linspace_nth a b n i :
  (2 <= n)%nat -> (i < n)%nat ->
  nth i (np_linspace a b n) 0 = a + INR i * ((b - a) / INR (n - 1)).
Proof.
  intros Hn Hi. destruct n as [|[|n]]; try lia.
  unfold np_linspace.
  exact (nth_map_seq (fun i => a + INR i * ((b - a) / INR (S (S n) - 1)))
           (S (S n)) i Hi).
Qed.

(** X15. For [time_steps = np.linspace(0, t, num_time_steps)] with at
    least two points: the grid has [num_time_steps] points from [0] to [t]
    spaced by [t/(num_time_steps - 1)], while the integrator's step is
    [t/num_time_steps], so that its [num_time_steps] steps add up to [t];
    step and spacing differ unless [t = 0]. *)
Theorem notebook_time_grid G n :
  (2 <= n)%nat ->
  num_time_steps G = Z.of_nat n ->
  length (np_linspace 0 (t G) n) = n /\
  nth 0 (np_linspace 0 (t G) n) 0 = 0 /\
  nth (n - 1) (np_linspace 0 (t G) n) 0 = t G /\
  (forall i, (S i < n)%nat ->
             nth (S i) (np_linspace 0 (t G) n) 0
             - nth i (np_linspace 0 (t G) n) 0 = t G / INR (n - 1)) /\
  step_size G = Ok (t G / INR n) /\
  INR n * (t G / INR n) = t G /\
  (t G <> 0 -> t G / INR n <> t G / INR (n - 1)).
Proof.
  intros Hn Hnum.
  assert (Hn0 : 0 < INR n) by (apply lt_0_INR; lia).
  assert (Hn1 : 0 < INR (n - 1)) by (apply lt_0_INR; lia).
  assert (Hnn : INR n = INR (n - 1) + 1).
  { rewrite <- S_INR. f_equal. lia. }
  split; [apply np_linspace_length|].
  split; [rewrite np_linspace_nth by lia; simpl; lra|].
  split; [rewrite np_linspace_nth by lia; field; lra|].
  split.
  { intros i Hi. rewrite !np_linspace_nth by lia. rewrite S_INR. field. lra. }
  split.
  { unfold step_size. rewrite Hnum.
    destruct (Z.eqb_spec (Z.of_nat n) 0) as [E|_]; [lia|].
    rewrite <- INR_IZR_INZ. reflexivity. }
  split; [field; lra|].
  intros Ht E. apply Ht.
  assert (E' : t G * INR (n - 1) = t G * INR n).
  { apply (f_equal (fun x => x * INR n * INR (n - 1))) in E.
    field_simplify in E; lra. }
  nra.
Qed.

Lemma notebook_time_grid_witness :
  length (np_linspace 0 (1 / 2) 10) = 10%nat /\
  step_size (ry1_globals (1 / 2) 10) = Ok (1 / 2 / INR 10) /\
  1 / 2 / INR 10 <> 1 / 2 / INR (10 - 1).
Proof.
  destruct (notebook_time_grid (ry1_globals (1 / 2) 10) 10
              ltac:(lia) eq_refl) as [H1 [_ [_ [_ [H5 [_ H7]]]]]].
  split; [exact H1|]. split; [exact H5|].
  apply H7. simpl. lra.
Defined.

Lemma subtract_zero_step h theta qng :
  length qng = length theta ->
  Forall (fun z => Re z = 0) qng ->
  zip_with Rminus theta (map (Rmult h) (map Re qng)) = theta.
Proof.
  revert qng; induction theta as [|x theta IH]; intros [|z qng] Hlen Hz;
    simpl in *; try discriminate; [reflexivity|].
  inversion Hz as [|? ? Hz0 Hz']; subst.
  rewrite Hz0, IH by (try lia; assumption). f_equal. lra.
Qed.

Lemma update_at_stationary_point lstsq G op params theta theta1 g d' :
  lstsq_shape lstsq -> lstsq_real_zero lstsq ->
  NoDup params -> length theta = length params ->
  gradient op (dict_zip params theta) = Ok (g, d') ->
  Forall (fun z => Re z = 0) g ->
  euler_update lstsq G op params theta = Ok theta1 ->
  theta1 = theta.
Proof.
  intros Hshape Hzero Hnd Hlen Hg Hgz Hu.
  destruct (euler_update_inv lstsq G op params theta theta1 Hu)
    as [qng [d1 [Hq [_ Hs]]]].
  pose proof (dict_keys_dict_zip params theta Hnd) as Hndd.
  pose proof (QNG_length lstsq op (ansatz_op G) _ qng d1 Hshape Hndd Hq)
    as Hl.
  rewrite (length_dict_zip params theta Hnd), Hlen, Nat.min_id in Hl.
  destruct (QNG_inv lstsq op (ansatz_op G) _ qng d1 Hq)
    as [grad [d2 [qfi [Hg' [_ Hsol]]]]].
  rewrite Hg in Hg'. injection Hg' as <- _.
  pose proof (Hzero _ _ _ Hsol Hgz) as Hqz.
  unfold np_subtract, broadcast2 in Hs.
  rewrite !length_map, Hl, Hlen, Nat.eqb_refl in Hs.
  injection Hs as <-.
  apply subtract_zero_step; [congruence|exact Hqz].
Qed.

(** X16. With a solver that returns one unknown per row and a solution
    with zero real part for a right-hand side with zero real part: when the
    real part of the gradient vanishes at the initial parameters, the
    parameters returned by [get_gibbs_state_params] are the initial ones. *)
Theorem stationary_point_is_fixed lstsq G op params theta grid theta_f g d' :
  lstsq_shape lstsq -> lstsq_real_zero lstsq ->
  NoDup params -> length theta = length params ->
  gradient op (dict_zip params theta) = Ok (g, d') ->
  Forall (fun z => Re z = 0) g ->
  get_gibbs_state_params lstsq G op params theta grid = Ok theta_f ->
  theta_f = theta.
Proof.
  intros Hshape Hzero Hnd Hlen Hg Hgz.
  induction grid as [|s grid IH]; simpl; intros H.
  - injection H as <-. reflexivity.
  - destruct (euler_update lstsq G op params theta) as [theta1|] eqn:Hu;
      simpl in H; [|discriminate].
    rewrite (update_at_stationary_point lstsq G op params theta theta1 g d'
               Hshape Hzero Hnd Hlen Hg Hgz Hu) in H.
    apply IH. exact H.
Qed.

Lemma lstsq_1x1_real_zero : lstsq_real_zero lstsq_1x1.
Proof.
  intros a b x H Hb. unfold lstsq_1x1 in H.
  destruct a as [|[|a00 [|? ?]] [|? ?]]; try discriminate.
  destruct b as [|b0 [|? ?]]; try discriminate.
  injection H as <-. constructor; [|constructor].
  inversion Hb as [|? ? Hb0 _]; subst.
  destruct (Req_dec_T a00 0); simpl; [reflexivity|].
  rewrite Hb0. unfold Rdiv. lra.
Qed.

Lemma stationary_point_is_fixed_witness :
  exists theta_f,
    get_gibbs_state_params lstsq_1x1 (ry1_globals (1 / 2) 2)
      (ry1_hamiltonian [1]) [0%nat] [0] [0; 1 / 2] = Ok theta_f /\
    theta_f = [0].
Proof.
  exists [0]. split; [exact ry1_rest|].
  eapply (stationary_point_is_fixed lstsq_1x1 (ry1_globals (1 / 2) 2)
            (ry1_hamiltonian [1]) [0%nat] [0] [0; 1 / 2] [0]).
  - exact lstsq_1x1_shape.
  - exact lstsq_1x1_real_zero.
  - repeat constructor. simpl. tauto.
  - reflexivity.
  - change (dict_zip [0%nat] [0]) with [(0%nat, 0)].
    unfold ry1_hamiltonian. cbn [hd]. apply ry1_gradient.
  - constructor; [|constructor]. simpl. rewrite sin_0. lra.
  - exact ry1_rest.
Defined.

(** X2. For every square array [m], entry [(i, j)] of
    [m + alpha * np.diag(m)] is [m[i][j] + alpha * m[j][j]]: column [j] is
    moved by [alpha] times the [j]-th diagonal entry, and the diagonal is
    scaled by [1 + alpha]. *)
Theorem regularized_system m n i j :
  length m = n ->
  (forall row, In row m -> length row = n) ->
  (i < n)%nat -> (j < n)%nat ->
  entry (regularized m) i j
  = Some (nth j (nth i m []) 0 + alpha * nth j (nth j m []) 0) /\
  entry (regularized m) i i = Some ((1 + alpha) * nth i (nth i m []) 0).
Proof.
  intros Hlen Hrows Hi Hj.
  assert (Hent : forall a b, (a < n)%nat -> (b < n)%nat ->
                             entry m a b = Some (nth b (nth a m []) 0)).
  { intros a b Ha Hb. unfold entry.
    destruct (nth_error m a) as [row|] eqn:Hr;
      [|apply nth_error_None in Hr; lia].
    rewrite (nth_error_nth m a [] Hr).
    apply nth_error_nth'. rewrite (Hrows row (nth_error_In _ _ Hr)).
    exact Hb. }
  split.
  - apply regularized_entry; apply Hent; assumption.
  - rewrite (regularized_entry m i i _ _ (Hent i i Hi Hi) (Hent i i Hi Hi)).
    f_equal. lra.
Qed.

Lemma regularized_system_witness :
  entry (regularized [[1; 2]; [3; 4]]) 0 1 = Some (2 + alpha * 4) /\
  entry (regularized [[1; 2]; [3; 4]]) 0 0 = Some ((1 + alpha) * 1).
Proof.
  apply (regularized_system [[1; 2]; [3; 4]] 2 0 1).
  - reflexivity.
  - intros row [<-|[<-|[]]]; reflexivity.
  - lia.
  - lia.
Defined.

Lemma pauli_diagonal_entry state_op d qfi d' k :
  unit_norm state_op ->
  (forall p, In p (dict_keys d) -> rotation_angle state_op p) ->
  NoDup (dict_keys d) ->
  QFI state_op d = Ok (qfi, d') ->
  (k < length d)%nat -> entry qfi k k = Some (- (1 / 2)).
Proof.
  intros Hunit Hrot Hnd H Hk.
  destruct (QFI_returns state_op d qfi d' Hnd H)
    as [_ [meas [Hmeas [_ [_ Hent]]]]].
  destruct (nth_key d k Hk) as [pk Hpk].
  destruct (Hent k k pk pk Hpk Hpk) as [q [Hq ->]]. f_equal.
  assert (Hself : overlap_at state_op meas d = Ok (RtoC 1)).
  { unfold overlap_at. rewrite Hmeas. simpl. apply (Hunit d meas Hmeas). }
  unfold qfi_stencil, shift2 in Hq.
  rewrite !shifted_same in Hq.
  replace (PI / 2 + PI / 2) with PI in Hq by lra.
  replace (PI / 2 + - (PI / 2)) with 0 in Hq by lra.
  replace (- (PI / 2) + - (PI / 2)) with (- PI) in Hq by lra.
  replace (- (PI / 2) + PI / 2) with 0 in Hq by lra.
  rewrite shifted_zero, Hself in Hq.
  destruct (overlap_at state_op meas (shifted d pk PI)) as [v|] eqn:Hv;
    simpl in Hq; [|discriminate].
  rewrite (Hrot pk (nth_error_In _ _ Hpk) meas d v Hv) in Hq.
  simpl in Hq. injection Hq as <-. lra.
Qed.

(** X3. For a unit-norm ansatz of Pauli rotations the system handed to the
    solver is the metric tensor with [alpha/2] subtracted from every entry;
    it is symmetric. *)
Theorem pauli_regularized_system state_op d qfi d' :
  unit_norm state_op ->
  (forall p, In p (dict_keys d) -> rotation_angle state_op p) ->
  NoDup (dict_keys d) ->
  QFI state_op d = Ok (qfi, d') ->
  forall i j,
    (i < length d)%nat -> (j < length d)%nat ->
    exists x,
      entry qfi i j = Some x /\
      entry (regularized qfi) i j = Some (x - alpha / 2) /\
      entry (regularized qfi) j i = Some (x - alpha / 2).
Proof.
  intros Hunit Hrot Hnd H i j Hi Hj.
  pose proof (pauli_diagonal_entry state_op d qfi d' i Hunit Hrot Hnd H Hi)
    as Hii.
  pose proof (pauli_diagonal_entry state_op d qfi d' j Hunit Hrot Hnd H Hj)
    as Hjj.
  destruct (QFI_returns state_op d qfi d' Hnd H)
    as [_ [meas [_ [_ [_ Hent]]]]].
  destruct (nth_key d i Hi) as [pi Hpi].
  destruct (nth_key d j Hj) as [pj Hpj].
  destruct (Hent i j pi pj Hpi Hpj) as [x [Hx Hij]].
  destruct (Hent j i pj pi Hpj Hpi) as [y [Hy Hji]].
  assert (y = x)
    by (symmetry; exact (qfi_stencil_sym state_op meas d pi pj x y Hx Hy)).
  subst y. exists x. split; [exact Hij|].
  rewrite (regularized_entry qfi i j _ _ Hij Hjj).
  rewrite (regularized_entry qfi j i _ _ Hji Hii).
  split; f_equal; lra.
Qed.

Lemma pauli_regularized_system_witness :
  exists qfi d',
    QFI two_ry origin2 = Ok (qfi, d') /\
    forall i j,
      (i < 2)%nat -> (j < 2)%nat ->
      exists x,
        entry qfi i j = Some x /\
        entry (regularized qfi) i j = Some (x - alpha / 2) /\
        entry (regularized qfi) j i = Some (x - alpha / 2).
Proof.
  eexists. eexists. split; [reflexivity|].
  eapply (pauli_regularized_system two_ry origin2).
  - apply ry_unit_norm.
  - intros p Hp. apply ry2_rotation_angle. exact Hp.
  - nodup_keys.
  - reflexivity.
Defined.

Lemma np_log_positive p : 0 < p -> np_log (RtoC p) = Finite (mkC (ln p) 0).
Proof.
  intros Hp. unfold np_log.
  destruct (Ceq_dec (RtoC p) (RtoC 0)) as [E|_].
  - apply (f_equal Re) in E. simpl in E. lra.
  - f_equal. unfold Clog, Carg. simpl.
    destruct (Rlt_dec 0 p) as [_|N]; [|contradiction].
    apply C_eq; simpl.
    + replace (p * p + 0 * 0) with (p * p) by lra.
      rewrite sqrt_square by lra. reflexivity.
    + unfold Rdiv. rewrite Rmult_0_l. apply atan_0.
Qed.

Lemma np_sum_positive p_target ps acc :
  length p_target = length ps ->
  Forall (fun p => 0 < p) ps ->
  exists z,
    fold_left fadd (zip_with fmul p_target (map np_log (map RtoC ps)))
      (Finite acc) = Finite z /\
    Re z = Re acc + dot p_target (map ln ps).
Proof.
  revert p_target acc; induction ps as [|p ps IH]; intros [|x pt] acc Hlen Hp;
    simpl in *; try discriminate.
  - exists acc. split; [reflexivity|lra].
  - inversion Hp as [|? ? Hp0 Hp']; subst.
    rewrite (np_log_positive p Hp0). simpl.
    destruct (IH pt (Cadd acc (Cscale x (mkC (ln p) 0))) ltac:(lia) Hp')
      as [z [Hz Hre]].
    exists z. split; [exact Hz|]. rewrite Hre. simpl. lra.
Qed.

Lemma dot_log_nonpositive p_target ps :
  Forall (fun p => 0 < p <= 1) ps ->
  Forall (fun x => 0 <= x) p_target ->
  dot p_target (map ln ps) <= 0.
Proof.
  revert ps; induction p_target as [|x pt IH]; intros [|p ps] Hp Hx; simpl;
    try lra.
  inversion Hp as [|? ? [Hp0 Hp1] Hp']; subst.
  inversion Hx as [|? ? Hx0 Hx']; subst.
  specialize (IH ps Hp' Hx').
  assert (ln p <= 0).
  { destruct (Rle_lt_or_eq_dec p 1 Hp1) as [Hlt| ->].
    - rewrite <- ln_1. left. apply ln_increasing; assumption.
    - rewrite ln_1. lra. }
  nra.
Qed.

(** X17. On a model vector of positive reals, as long as the target, the
    expression that [loss] returns is the cross-entropy
    [-sum(p_target[i] * ln(p_qbm[i]))], a finite real; it is non-negative
    when the model entries are at most [1] and the target entries are
    non-negative. *)
Theorem cross_entropy_value p_target ps :
  length p_target = length ps ->
  Forall (fun p => 0 < p) ps ->
  cross_entropy p_target (map RtoC ps)
  = Ok (Finite (- dot p_target (map ln ps))) /\
  (Forall (fun p => p <= 1) ps -> Forall (fun x => 0 <= x) p_target ->
   0 <= - dot p_target (map ln ps)).
Proof.
  intros Hlen Hp. split.
  - rewrite cross_entropy_returns by (rewrite length_map; exact Hlen).
    unfold np_sum.
    destruct (np_sum_positive p_target ps (RtoC 0) Hlen Hp) as [z [-> Hre]].
    simpl. rewrite Hre. simpl. do 2 f_equal. lra.
  - intros Hle Hx.
    assert (Hboth : Forall (fun p => 0 < p <= 1) ps).
    { apply Forall_forall. intros p Hin.
      rewrite Forall_forall in Hp, Hle. split; auto. }
    pose proof (dot_log_nonpositive p_target ps Hboth Hx). lra.
Qed.

Lemma cross_entropy_value_witness :
  cross_entropy [1 / 2; 1 / 2] (map RtoC [1 / 2; 1 / 2])
  = Ok (Finite (- dot [1 / 2; 1 / 2] (map ln [1 / 2; 1 / 2]))) /\
  0 <= - dot [1 / 2; 1 / 2] (map ln [1 / 2; 1 / 2]).
Proof.
  destruct (cross_entropy_value [1 / 2; 1 / 2] [1 / 2; 1 / 2] eq_refl)
    as [H1 H2].
  { repeat constructor; lra. }
  split; [exact H1|]. apply H2; repeat constructor; lra.
Defined.

(** Binding and lookup. *)
Lemma dict_get_combine keys theta k p v :
  NoDup keys -> nth_error keys k = Some p -> nth_error theta k = Some v ->
  dict_get (combine keys theta) p = Some v.
Proof.
  revert theta k; induction keys as [|q keys IH]; intros [|w theta] [|k] Hnd;
    simpl; try discriminate.
  - intros Hq Hw. injection Hq as ->. injection Hw as ->.
    rewrite Nat.eqb_refl. reflexivity.
  - intros Hp Hv. inversion Hnd as [|? ? Hq Hnd']; subst.
    destruct (Nat.eqb_spec q p) as [->|_].
    + exfalso. apply Hq. apply (nth_error_In _ _ Hp).
    + apply (IH theta k Hnd' Hp Hv).
Qed.

Lemma map_snd_combine {A B} (l : list A) (l' : list B) :
  length l = length l' -> map snd (combine l l') = l'.
Proof.
  revert l'; induction l as [|a l IH]; intros [|b l']; simpl;
    try discriminate; auto.
  intros H. f_equal. apply IH. lia.
Qed.

(** X18. For distinct parameters, [dict(zip(keys, theta))] maps the
    [k]-th parameter to the [k]-th value; with as many values as parameters
    its keys are the parameters in order and its values are [theta]. *)
Theorem binding_round_trip keys theta :
  NoDup keys ->
  (forall k p v, nth_error keys k = Some p -> nth_error theta k = Some v ->
                 dict_get (dict_zip keys theta) p = Some v) /\
  (length keys = length theta ->
   dict_keys (dict_zip keys theta) = keys /\
   map snd (dict_zip keys theta) = theta).
Proof.
  intros Hnd.
  assert (E : dict_zip keys theta = combine keys theta).
  { unfold dict_zip. apply dict_of_nodup. rewrite map_fst_combine.
    apply NoDup_firstn_keys. exact Hnd. }
  rewrite E. split.
  - intros k p v. apply dict_get_combine. exact Hnd.
  - intros Hlen. split.
    + unfold dict_keys. rewrite map_fst_combine, <- Hlen. apply firstn_all.
    + apply map_snd_combine. exact Hlen.
Qed.

Lemma binding_round_trip_witness :
  dict_get (dict_zip [3%nat; 5%nat] [7; 9]) 5%nat = Some 9 /\
  dict_keys (dict_zip [3%nat; 5%nat] [7; 9]) = [3%nat; 5%nat] /\
  map snd (dict_zip [3%nat; 5%nat] [7; 9]) = [7; 9].
Proof.
  destruct (binding_round_trip [3%nat; 5%nat] [7; 9]) as [H1 H2].
  { repeat (constructor; [simpl; intuition discriminate|]); constructor. }
  split; [apply (H1 1%nat); reflexivity|]. apply H2. reflexivity.
Defined.

(** X20. Whenever [QFI] returns, the array has one row per dictionary
    entry, every row has one entry per dictionary entry, and every
    position inside is filled. *)
Theorem metric_tensor_square state_op d qfi d' :
  NoDup (dict_keys d) ->
  QFI state_op d = Ok (qfi, d') ->
  length qfi = length d /\
  Forall (fun row => length row = length d) qfi /\
  forall k l, (k < length d)%nat -> (l < length d)%nat ->
              exists q, entry qfi k l = Some q.
Proof.
  intros Hnd H.
  destruct (QFI_returns state_op d qfi d' Hnd H)
    as [_ [meas [_ [Hlen [Hrows Hent]]]]].
  split; [exact Hlen|]. split.
  - apply Forall_forall. intros row Hin.
    destruct (In_nth_error _ _ Hin) as [k Hk]. exact (Hrows k row Hk).
  - intros k l Hk Hl.
    destruct (nth_key d k Hk) as [pk Hpk].
    destruct (nth_key d l Hl) as [pl Hpl].
    destruct (Hent k l pk pl Hpk Hpl) as [q [_ Hq]]. exists q. exact Hq.
Qed.

Lemma metric_tensor_square_witness :
  exists qfi d',
    QFI two_ry origin2 = Ok (qfi, d') /\
    length qfi = 2%nat /\
    Forall (fun row => length row = 2%nat) qfi /\
    forall k l, (k < 2)%nat -> (l < 2)%nat ->
                exists q, entry qfi k l = Some q.
Proof.
  eexists. eexists. split; [reflexivity|].
  eapply (metric_tensor_square two_ry origin2).
  - nodup_keys.
  - reflexivity.
Defined.

Lemma length_list_update arr i v : length (list_update arr i v) = length arr.
Proof.
  revert i; induction arr as [|x arr IH]; intros [|i]; simpl; auto.
Qed.

Lemma nth_list_update arr i v j :
  (i < length arr)%nat ->
  nth j (list_update arr i v) 0 = if Nat.eqb j i then v else nth j arr 0.
Proof.
  revert i j; induction arr as [|x arr IH]; intros [|i] [|j] Hi; simpl in *;
    try lia; try reflexivity.
  apply IH. lia.
Qed.

Lemma np_setitem_nat arr j v :
  (j < length arr)%nat ->
  np_setitem arr (Z.of_nat j) v = Some (list_update arr j v).
Proof.
  intros Hj. unfold np_setitem.
  destruct (Z.leb_spec 0 (Z.of_nat j)); [|lia].
  destruct (Z.ltb_spec (Z.of_nat j) (Z.of_nat (length arr))); [|lia].
  simpl. rewrite Nat2Z.id. reflexivity.
Qed.

(** Assigning [v] at the indices [a, a+1, ..., a+k-1], all inside the
    array. *)
Lemma fill_range arr a k v :
  (a + k <= length arr)%nat ->
  exists arr',
    fold_left (fun acc j => match acc with
                            | Some x => np_setitem x j v
                            | None => None
                            end)
      (map (fun i => (Z.of_nat a + Z.of_nat i)%Z) (seq 0 k)) (Some arr)
    = Some arr' /\
    length arr' = length arr /\
    forall j, nth j arr' 0
              = if (Nat.leb a j && Nat.ltb j (a + k))%bool then v
                else nth j arr 0.
Proof.
  revert arr a; induction k as [|k IH]; intros arr a Hk.
  - exists arr. simpl. repeat split.
    intros j. destruct (Nat.leb_spec a j), (Nat.ltb_spec j (a + 0));
      simpl; try reflexivity; lia.
  - simpl seq. simpl map. simpl fold_left.
    rewrite Z.add_0_r, np_setitem_nat by lia.
    rewrite <- seq_shift, map_map.
    destruct (IH (list_update arr a v) (S a)) as [arr' [Hf [Hl Hn]]].
    { rewrite length_list_update. lia. }
    exists arr'. split.
    + rewrite <- Hf. f_equal. apply map_ext. intros i. lia.
    + split; [rewrite Hl; apply length_list_update|].
      intros j. rewrite Hn, nth_list_update by lia.
      destruct (Nat.leb_spec (S a) j), (Nat.ltb_spec j (S a + k)),
        (Nat.leb_spec a j), (Nat.ltb_spec j (a + S k)),
        (Nat.eqb_spec j a); simpl; try reflexivity; lia.
Qed.

Lemma nth_repeat_zero n j : nth j (repeat 0 n) 0 = 0.
Proof.
  revert j; induction n as [|n IH]; intros [|j]; simpl; auto.
Qed.

(** X19. The cell that builds [param_values_init] never indexes out of
    bounds; it yields [2 * num_qubits * (depth + 1)] entries, of which
    those at the positions [j] with [2 * num_qubits * depth <= j] and
    [j + num_qubits + 2 < 2 * num_qubits * (depth + 1)] are [pi/2] and all
    others are [0]. *)
Theorem init_param_values_spec num_qubits depth :
  exists arr,
    init_param_values num_qubits depth = Some arr /\
    length arr = (2 * num_qubits * (depth + 1))%nat /\
    forall j,
      nth j arr 0
      = if (Nat.leb (2 * num_qubits * depth) j
            && Nat.ltb (j + num_qubits + 2) (2 * num_qubits * (depth + 1)))%bool
        then PI / 2 else 0.
Proof.
  unfold init_param_values, py_range, np_zeros.
  rewrite repeat_length.
  set (len := (2 * num_qubits * (depth + 1))%nat).
  set (a := (2 * num_qubits * depth)%nat).
  set (k := Z.to_nat (Z.of_nat len - Z.of_nat num_qubits - 2
                      - Z.of_nat a)).
  destruct (fill_range (repeat 0 len) a k (PI / 2)) as [arr [Hf [Hl Hn]]].
  { rewrite repeat_length. unfold k, len, a. lia. }
  exists arr. split; [exact Hf|].
  split; [rewrite Hl; apply repeat_length|].
  intros j. rewrite Hn, nth_repeat_zero.
  destruct (Nat.leb_spec a j), (Nat.ltb_spec j (a + k)),
    (Nat.ltb_spec (j + num_qubits + 2) len); simpl; try reflexivity;
    unfold k, len, a in *; lia.
Qed.
